(** * holopy.fitting.mcmc: posterior summaries, thinning and subset tempering

  A shallow embedding of [holopy/fitting/mcmc.py].  Python objects become
  records, [while] loops become fuelled fixpoints that read rows through
  [iloc] exactly where the source does, and Python exceptions become the
  [Raise] branch of a small error monad.

  Numbers.  The source computes on float64.  Sample values and
  log-probabilities are embedded as rationals [Q]: the summarizer only
  compares, takes maxima and minima and subtracts, so the embedding is
  exact for finite values up to the rounding of a subtraction.  NaN and
  the infinities are outside the model.  The log-spaced fraction schedule
  needs [log10] and powers: it is embedded over the real numbers [R],
  and, for what rounding decides, once more on float64, with numpy's
  [log10] and [power] as parameters ([Fractions64]). *)

From Stdlib Require Import List Bool Arith ZArith Lia.
From Stdlib Require Import QArith Qminmax Qround.
From Stdlib Require Import Permutation Sorted.
From Stdlib Require String.
From Stdlib Require Import Reals Lra.
From Stdlib Require PrimFloat Uint63.
Import ListNotations.

Set Implicit Arguments.

(** ** Python exceptions and the error monad *)

Module Py.

(** The exceptions the embedded code can raise.  [IndexError i] is the
    out-of-bounds positional access [iloc[i]]; [ValueError] is numpy's
    "slice step cannot be zero", [max()] of an empty sequence, [vstack]
    of nothing or of columns of different lengths, and pandas' read
    without a key of a file that does not hold exactly one dataset;
    [IOError] is reading a file that does not exist, [KeyError] reading a
    group or an attribute that was never written;
    [Diverged] is not a Python exception: it marks a loop model that ran
    out of fuel, and the summarizer is proved never to end on it
    ([values_total]). *)
Inductive exn : Type :=
| IndexError (i : nat)
| ValueError
| IOError
| KeyError
| Diverged.

Inductive result (A : Type) : Type :=
| Ok (a : A)
| Raise (e : exn).

Arguments Ok {A} a.
Arguments Raise {A} e.

Definition bind {A B : Type} (m : result A) (k : A -> result B) : result B :=
  match m with
  | Ok a => k a
  | Raise e => Raise e
  end.

Definition is_ok {A : Type} (m : result A) : bool :=
  match m with Ok _ => true | Raise _ => false end.

End Py.

Import Py.

Notation "x <- m ;; k" := (bind m (fun x => k))
(at level 61, m at next level, right associativity).

(** ** UncertainValue *)

Module Uncertain.

(** [class UncertainValue]: the four attributes [__init__] stores.  The
    [minus] attribute holds whatever was passed, and Python's [None] when
    the argument was omitted, hence the [option]. *)
Record UncertainValue : Type := mkUncertainValue {
  value : Q;
  plus : Q;
  minus : option Q;
  n_sigma : Q
}.

(** [def __init__(self, value, plus, minus=None, n_sigma=1)].  An omitted
    keyword argument is [None] here and is replaced by its default. *)
Definition __init__ (value plus : Q) (minus : option Q) (n_sigma : option Q)
  : UncertainValue :=
  {| value := value;
     plus := plus;
     minus := minus;
     n_sigma := match n_sigma with Some n => n | None => 1 end |}.

End Uncertain.

Import Uncertain.

(** ** Sample tables and the credible-bound scan *)

Module Summarizer.

(** [d.iloc[i, :-1]]: one row of the frame without its last cell. *)
Definition Series : Type := list Q.

(** A row of the flattened sample table: the parameter cells, in the
    order of the model's parameter list, and the [lnprob] cell, which
    [data_frame] appends as the last column.  Labels are embedded as
    positions: [mp[p] for p in self._names] walks the parameter cells in
    order. *)
Record Row : Type := mkRow {
  pars : Series;
  lnprob : Q
}.

Definition DataFrame : Type := list Row.

(** [d.shape[0]] *)
Definition shape0 (d : DataFrame) : nat := length d.

(** [d.iloc[i]], raising on a position past the last row. *)
Definition iloc (d : DataFrame) (i : nat) : result Row :=
  match nth_error d i with
  | Some r => Ok r
  | None => Raise (IndexError i)
  end.

(** [d.sort_values('lnprob', ascending=False)].  Rows are inserted from
    the right, each in front of the rows whose key is not larger, so
    rows with equal keys keep their relative order.  pandas keeps that
    order where its sort is stable, which the default kind is on short
    columns only; the tables the summarizer is tried on below have
    distinct keys. *)
Fixpoint insert_desc (r : Row) (d : DataFrame) : DataFrame :=
  match d with
  | [] => [r]
  | r' :: d' =>
      if Qle_bool (lnprob r') (lnprob r)
      then r :: r' :: d'
      else r' :: insert_desc r d'
  end.

Definition sort_values (d : DataFrame) : DataFrame :=
  fold_right insert_desc [] d.

(** [d.lnprob.max()].  On an empty column pandas answers NaN; the scan
    never gets there, [d.iloc[0, :-1]] has raised before. *)
Fixpoint lnprob_max (d : DataFrame) : Q :=
  match d with
  | [] => 0
  | r :: d' =>
      match d' with
      | [] => lnprob r
      | _ :: _ => Qmax (lnprob r) (lnprob_max d')
      end
  end.

(** [np.maximum(b, s)] and [np.minimum(b, s)] on two aligned series. *)
Fixpoint map2 (f : Q -> Q -> Q) (b s : Series) : Series :=
  match b, s with
  | x :: b', y :: s' => f x y :: map2 f b' s'
  | _, _ => []
  end.

(** [(b == mp).any()] *)
Fixpoint any_eq (b mp : Series) : bool :=
  match b, mp with
  | x :: b', y :: mp' => Qeq_bool x y || any_eq b' mp'
  | _, _ => false
  end.

(** [find_bound(f, i)]: the loop
    [while (b == mp).any() and i < d.shape[0]: b = f(b, d.iloc[i,:-1]); i += 1]
    started from [b = d.iloc[0, :-1]].  Each turn consumes one unit of
    fuel; [find_bound] supplies more than the loop can use. *)
Fixpoint find_bound_loop (fuel : nat) (d : DataFrame) (mp : Series)
  (f : Q -> Q -> Q) (b : Series) (i : nat) : result Series :=
  match fuel with
  | O => Raise Diverged
  | S fuel' =>
      if any_eq b mp && (i <? shape0 d)%nat
      then r <- iloc d i ;;
           find_bound_loop fuel' d mp f (map2 f b (pars r)) (S i)
      else Ok b
  end.

Definition find_bound (d : DataFrame) (mp : Series) (f : Q -> Q -> Q) (i : nat)
  : result Series :=
  r0 <- iloc d 0 ;;
  find_bound_loop (S (shape0 d)) d mp f (pars r0) i.

(** The threshold loop
    [while d.lnprob.iloc[i] > d.lnprob.max()-.5 and i < d.shape[0]: i += 1].
    Python evaluates the left operand of [and] first, so the row is read
    before the position is compared with the number of rows. *)
Fixpoint threshold_loop (fuel : nat) (d : DataFrame) (i : nat) : result nat :=
  match fuel with
  | O => Raise Diverged
  | S fuel' =>
      r <- iloc d i ;;
      if negb (Qle_bool (lnprob r) (lnprob_max d - (1#2))) && (i <? shape0 d)%nat
      then threshold_loop fuel' d (S i)
      else Ok i
  end.

(** The list comprehension of the last line:
    [UncertainValue(mp[p], upper[p]-mp[p], mp[p]-lower[p]) for p in names]. *)
Fixpoint uncertain_values (mp upper lower : Series) : list UncertainValue :=
  match mp, upper, lower with
  | m :: mp', u :: upper', l :: lower' =>
      __init__ m (u - m) (Some (m - l)) None :: uncertain_values mp' upper' lower'
  | _, _, _ => []
  end.

(** [SamplingResult._values(self, d)] *)
Definition _values (d0 : DataFrame) : result (list UncertainValue) :=
  let d := sort_values d0 in
  r0 <- iloc d 0 ;;
  let mp := pars r0 in
  i <- threshold_loop (S (shape0 d)) d 0 ;;
  upper <- find_bound d mp Qmax (i + 1) ;;
  lower <- find_bound d mp Qmin (i + 1) ;;
  Ok (uncertain_values mp upper lower).

End Summarizer.

Import Summarizer.

(** ** Slices *)

Module Slice.

(** The positions [skip], [skip + k], [skip + 2k], ... of a list. *)
Fixpoint every_aux {A : Type} (k skip : nat) (l : list A) : list A :=
  match l with
  | [] => []
  | x :: l' =>
      match skip with
      | O => x :: every_aux k (k - 1) l'
      | S skip' => every_aux k skip' l'
      end
  end.

Definition every {A : Type} (k : nat) (l : list A) : list A := every_aux k 0 l.

(** [l[start::step]] for a step that is not zero, with Python's rules for
    a negative or too large start and for a negative step. *)
Definition slice_nz {A : Type} (start step : Z) (l : list A) : list A :=
  let n := Z.of_nat (length l) in
  if (0 <? step)%Z then
    let s := if (start <? 0)%Z then Z.max (start + n) 0 else Z.min start n in
    every (Z.to_nat step) (skipn (Z.to_nat s) l)
  else
    let s := if (start <? 0)%Z then Z.max (start + n) (-1) else Z.min start (n - 1) in
    every (Z.to_nat (- step)) (rev (firstn (Z.to_nat (s + 1)) l)).

(** [a[:, start::step]] on an array whose first two axes are walker and
    step.  A zero step raises whatever the array holds. *)
Definition slice_axis1 {A : Type} (start step : Z) (a : list (list A))
  : result (list (list A)) :=
  if (step =? 0)%Z then Raise ValueError
  else Ok (map (slice_nz start step) a).

End Slice.

Import Slice.

(** ** Sampling results *)

Module Results.

Section WithPrior.

(** The parameter objects of a model come from the [prior] module; this
    part of the code only counts them. *)
Variable Prior : Type.

Record Model : Type := mkModel {
  parameters : list Prior
}.

(** What the code reads of an [emcee] sampler after a run.  [walkers]
    holds, per walker and step, the position and its log-probability:
    [sampler.chain] (walker x step x parameter) and
    [sampler.lnprobability] (walker x step) are its two projections, so
    the two arrays agree in shape as emcee guarantees. *)
Record EnsembleSampler : Type := mkSampler {
  walkers : list (list Row);
  acor : list Q
}.

Definition chain (s : EnsembleSampler) : list (list Series) :=
  map (map pars) (walkers s).

Definition lnprobability (s : EnsembleSampler) : list (list Q) :=
  map (map lnprob) (walkers s).

(** [class SamplingResult] *)
Record SamplingResult : Type := mkSamplingResult {
  samples : DataFrame;
  sr_model : Model
}.

(** [class EmceeResult(SamplingResult)] *)
Record EmceeResult : Type := mkEmceeResult {
  sampler : EnsembleSampler;
  model : Model
}.

(** The [thin] argument of [data_frame]: ['acor'], [None] or an int. *)
Inductive thin_arg : Type :=
| ThinAcor
| ThinNone
| ThinInt (k : Z).

(** Python's builtin [max] over a sequence. *)
Fixpoint py_max (l : list Q) : result Q :=
  match l with
  | [] => Raise ValueError
  | x :: l' =>
      match l' with
      | [] => Ok x
      | _ :: _ => m <- py_max l' ;; Ok (Qmax x m)
      end
  end.

(** Python's [int] of a float: truncation towards zero. *)
Definition int (q : Q) : Z :=
  if Qle_bool 0 q then Qfloor q else Qceiling q.

(** The stride [data_frame] slices with. *)
Definition thin_stride (r : EmceeResult) (thin : thin_arg) : result Z :=
  match thin with
  | ThinAcor => m <- py_max (acor (sampler r)) ;; Ok (int m)
  | ThinNone => Ok 1%Z
  | ThinInt k => Ok k
  end.

(** Rows of the frame: [chain.reshape(-1, npar)] next to
    [lnprobability.reshape(-1)]; assigning a column of another length
    raises. *)
Definition frame_of (positions : list Series) (lnprobs : list Q)
  : result DataFrame :=
  if (length positions =? length lnprobs)%nat
  then Ok (map (fun pl => mkRow (fst pl) (snd pl)) (combine positions lnprobs))
  else Raise ValueError.

(** [EmceeResult.data_frame(self, burn_in=0, thin='acor', include_lnprob=True)],
    on the [include_lnprob=True] path, the only one [values] takes. *)
Definition data_frame (r : EmceeResult) (burn_in : Z) (thin : thin_arg)
  : result DataFrame :=
  thin <- thin_stride r thin ;;
  chain' <- slice_axis1 burn_in thin (chain (sampler r)) ;;
  lnprob' <- slice_axis1 burn_in thin (lnprobability (sampler r)) ;;
  frame_of (concat chain') (concat lnprob').

(** [EmceeResult.values(self)] *)
Definition values (r : EmceeResult) : result (list UncertainValue) :=
  d <- data_frame r 0 ThinNone ;;
  _values d.

(** [SamplingResult.values(self)] *)
Definition sr_values (r : SamplingResult) : result (list UncertainValue) :=
  _values (samples r).

(** What [most_probable_values] returns: one position, or, when several
    positions share the largest log-probability and differ, all of them
    as a two-dimensional array. *)
Inductive mpv : Type :=
| Point (v : Series)
| Ambiguous (vs : list Series).

(** [values.min(axis=0)] and [values.max(axis=0)] *)
Definition reduce_axis0 (f : Q -> Q -> Q) (vs : list Series) : result Series :=
  match vs with
  | [] => Raise ValueError
  | v :: vs' => Ok (fold_left (map2 f) vs' v)
  end.

(** [np.any(a != b)] *)
Fixpoint any_neq (a b : Series) : bool :=
  match a, b with
  | x :: a', y :: b' => negb (Qeq_bool x y) || any_neq a' b'
  | _, _ => false
  end.

(** [EmceeResult.most_probable_values(self)] *)
Definition most_probable_values (r : EmceeResult) : result mpv :=
  let lnp := concat (lnprobability (sampler r)) in
  let pos := concat (chain (sampler r)) in
  m <- py_max lnp ;;
  let vals := map fst (filter (fun pl => Qeq_bool (snd pl) m) (combine pos lnp)) in
  lo <- reduce_axis0 Qmin vals ;;
  hi <- reduce_axis0 Qmax vals ;;
  if any_neq lo hi then Ok (Ambiguous vals)
  else v <- match vals with v :: _ => Ok v | [] => Raise (IndexError 0) end ;;
       Ok (Point v).

End WithPrior.

(** Chains to try the code on: two walkers of five steps with
    autocorrelation estimates; two walkers whose best step is shared; two
    walkers tied at the top at different positions; two walkers of a
    two-parameter model whose autocorrelation estimates are below one
    step. *)
Definition chain_thinned : EmceeResult unit :=
  mkEmceeResult
    (mkSampler
       [[mkRow [0] (-4); mkRow [1] (-3); mkRow [2] (-2); mkRow [3] (-1); mkRow [4] 0];
        [mkRow [5] (-4); mkRow [6] (-3); mkRow [7] (-2); mkRow [8] (-1); mkRow [9] 0]]
       [5#2; 1])
    (mkModel [tt]).

Definition chain_single_peak : EmceeResult unit :=
  mkEmceeResult
    (mkSampler
       [[mkRow [0; 6] (-3); mkRow [1; 7] 0];
        [mkRow [1; 7] 0; mkRow [2; 8] (-1)]]
       [1; 1])
    (mkModel [tt; tt]).

Definition chain_tied : EmceeResult unit :=
  mkEmceeResult
    (mkSampler
       [[mkRow [1] 0; mkRow [5] (-1)];
        [mkRow [2] 0; mkRow [6] (-2)]]
       [1])
    (mkModel [tt]).

Definition chain_short_memory : EmceeResult unit :=
  mkEmceeResult
    (mkSampler
       [[mkRow [0; 1] (-2); mkRow [1; 1] (-1); mkRow [2; 1] 0];
        [mkRow [3; 2] (-2); mkRow [4; 2] (-1); mkRow [5; 2] 0]]
       [1#2; 9#10])
    (mkModel [tt; tt]).

End Results.

Import Results.

(** ** Saving and loading *)

Module Persist.

Import String.

Section WithYaml.

Variable Prior : Type.

(** [yaml.dump] and [yaml.load] on a model, and the text between them. *)
Variable Yaml : Type.
Variable yaml_dump : Model Prior -> Yaml.
Variable yaml_load : Yaml -> Model Prior.

(** An HDF5 file as the code uses it: groups under their keys, each
    holding a table and, possibly, the attribute ['model'].  A group is
    what [to_hdf] writes for one frame; files of another kind are outside
    the model. *)
Record Group : Type := mkGroup {
  table : DataFrame;
  model_attr : option Yaml
}.

Definition H5File : Type := list (String.string * Group).

Definition FileSystem : Type := String.string -> option H5File.

Definition groupname : String.string := "samples"%string.

(** [f[key]] *)
Fixpoint get_group (key : String.string) (f : H5File) : option Group :=
  match f with
  | [] => None
  | (k, g) :: f' => if String.eqb k key then Some g else get_group key f'
  end.

(** The file without the group [key]. *)
Definition remove_group (key : String.string) (f : H5File) : H5File :=
  filter (fun kg => negb (String.eqb (fst kg) key)) f.

(** The file with the group [key] replaced by [g], the other groups kept. *)
Definition put_group (key : String.string) (g : Group) (f : H5File) : H5File :=
  (key, g) :: remove_group key f.

Definition write_file (fs : FileSystem) (filename : String.string) (f : H5File)
  : FileSystem :=
  fun name => if String.eqb name filename then Some f else fs name.

(** What a file opened in mode ['a'] holds: a missing file is created
    empty. *)
Definition contents (fs : FileSystem) (filename : String.string) : H5File :=
  match fs filename with
  | Some f => f
  | None => []
  end.

(** [df.to_hdf(filename, key)]: pandas opens the file in its default mode
    ['a'], which creates a missing file and keeps what an existing one
    holds; the node [key] is removed with its attributes and written
    anew. *)
Definition to_hdf (df : DataFrame) (filename key : String.string)
  (fs : FileSystem) : FileSystem :=
  let f := contents fs filename in
  write_file fs filename (put_group key (mkGroup df None) f).

(** [pd.read_hdf(filename, key)] *)
Definition read_hdf_key (filename key : String.string) (fs : FileSystem)
  : result DataFrame :=
  match fs filename with
  | Some f =>
      match get_group key f with
      | Some g => Ok (table g)
      | None => Raise KeyError
      end
  | None => Raise IOError
  end.

(** [pd.read_hdf(filename)] with no key: pandas reads the one dataset of
    the file and raises [ValueError] when the file holds none or more
    than one. *)
Definition read_hdf (filename : String.string) (fs : FileSystem)
  : result DataFrame :=
  match fs filename with
  | Some f =>
      match f with
      | [(_, g)] => Ok (table g)
      | _ => Raise ValueError
      end
  | None => Raise IOError
  end.

(** [SamplingResult._save(self, df, filename)]: the frame is written
    under ['samples'], then [h5py.File(filename)] opens the file again
    and the model is stored as the attribute ['model'] of that group. *)
Definition _save (self : SamplingResult Prior) (df : DataFrame)
  (filename : String.string) (fs : FileSystem) : FileSystem :=
  let fs1 := to_hdf df filename groupname fs in
  match fs1 filename with
  | Some f =>
      match get_group groupname f with
      | Some g =>
          write_file fs1 filename
            (put_group groupname
               (mkGroup (table g) (Some (yaml_dump (sr_model self)))) f)
      | None => fs1
      end
  | None => fs1
  end.

(** [SamplingResult.save(self, filename)] *)
Definition save (self : SamplingResult Prior) (filename : String.string)
  (fs : FileSystem) : FileSystem :=
  _save self (samples self) filename fs.

(** [SamplingResult.load(cls, filename)].  The body reads the table into a
    local and ends; the call evaluates to Python's [None]. *)
Definition load (filename : String.string) (fs : FileSystem)
  : result (option (SamplingResult Prior)) :=
  samples <- read_hdf_key filename groupname fs ;;
  Ok None.

(** [load_sampling(filename)] *)
Definition load_sampling (filename : String.string) (fs : FileSystem)
  : result (SamplingResult Prior) :=
  samples <- read_hdf filename fs ;;
  f <- match fs filename with Some f => Ok f | None => Raise IOError end ;;
  g <- match get_group groupname f with Some g => Ok g | None => Raise KeyError end ;;
  y <- match model_attr g with Some y => Ok y | None => Raise KeyError end ;;
  Ok (mkSamplingResult samples (yaml_load y)).

End WithYaml.

End Persist.

(** ** The fraction schedule *)

Module Fractions.

Local Open Scope R_scope.

(** [np.log10] and [np.power(10, .)] in the arithmetic of the real
    numbers, where the second undoes the first; [Fractions64] below has
    the same lines on float64, where it need not. *)
Definition log10 (x : R) : R := ln x / ln 10.

Definition power10 (y : R) : R := Rpower 10 y.

(** [y[-1] = stop] *)
Fixpoint set_last (y : list R) (stop : R) : list R :=
  match y with
  | [] => []
  | x :: y' =>
      match y' with
      | [] => [stop]
      | _ :: _ => x :: set_last y' stop
      end
  end.

(** [np.linspace(start, stop, num)] with the default [endpoint=True]:
    [arange(0, num)] is scaled by the step when there is one, shifted by
    [start], and its last entry is overwritten with [stop]. *)
Definition linspace (start stop : R) (num : nat) : list R :=
  let div := (num - 1)%nat in
  let delta := stop - start in
  let y := map INR (seq 0 num) in
  let y :=
    if (1 <? num)%nat
    then map (fun k => k * (delta / INR div)) y
    else map (fun k => k * delta) y in
  let y := map (fun v => v + start) y in
  if (1 <? num)%nat then set_last y stop else y.

(** [np.logspace(start, stop, num)] *)
Definition logspace (start stop : R) (num : nat) : list R :=
  map power10 (linspace start stop num).

(** [np.logspace(np.log10(min_pixels), np.log10(max_pixels), stages+1)/n_pixels] *)
Definition fractions (min_pixels max_pixels : Z) (stages : nat) (n_pixels : Z)
  : list R :=
  map (fun v => v / IZR n_pixels)
    (logspace (log10 (IZR min_pixels)) (log10 (IZR max_pixels)) (stages + 1)).

(** [fractions[:-1]] *)
Definition stage_fractions (fractions : list R) : list R := removelast fractions.

(** [fractions[-1]] *)
Definition final_fraction (fractions : list R) : result R :=
  match rev fractions with
  | f :: _ => Ok f
  | [] => Raise (IndexError 0)
  end.

(** The formula of the specification: linear interpolation of the two
    decimal logarithms, raised back, divided by the pixel count. *)
Definition lerp (a b t : R) : R := a + (b - a) * t.

Definition spec_fraction (min_pixels max_pixels : Z) (stages : nat)
  (n_pixels : Z) (i : nat) : R :=
  Rpower 10 (lerp (log10 (IZR min_pixels)) (log10 (IZR max_pixels))
               (INR i / INR stages)) / IZR n_pixels.

End Fractions.

(** ** The fraction schedule on float64 *)

Module Fractions64.

Import PrimFloat.

Local Open Scope float_scope.

(** numpy's elementwise [log10] and [power(10, .)] on float64.  They are
    the C library's functions and not part of this code; IEEE 754 fixes
    the four arithmetic operations and not these two. *)
Class NumPy : Type := {
  np_log10 : float -> float;
  np_power10 : float -> float
}.

(** A Python int as numpy turns it into a float64, for the ints numpy
    holds as int64: those of absolute value below 2^63.  The pixel count
    of an array is one of them. *)
Definition of_int (z : Z) : float :=
  if (z <? 0)%Z then - of_uint63 (Uint63.of_Z (- z))
  else of_uint63 (Uint63.of_Z z).

(** [y[-1] = stop] *)
Fixpoint set_last (y : list float) (stop : float) : list float :=
  match y with
  | [] => []
  | x :: y' =>
      match y' with
      | [] => [stop]
      | _ :: _ => x :: set_last y' stop
      end
  end.

(** [np.linspace(start, stop, num)] as in [Fractions.linspace], with the
    operations of float64; numpy scales by [k / div * delta] when the
    step rounds to zero. *)
Definition linspace (start stop : float) (num : nat) : list float :=
  let div := (num - 1)%nat in
  let delta := stop - start in
  let y := map (fun k => of_int (Z.of_nat k)) (seq 0 num) in
  let y :=
    if (1 <? num)%nat
    then
      let step := delta / of_int (Z.of_nat div) in
      if step =? 0
      then map (fun k => k / of_int (Z.of_nat div) * delta) y
      else map (fun k => k * step) y
    else map (fun k => k * delta) y in
  let y := map (fun v => v + start) y in
  if (1 <? num)%nat then set_last y stop else y.

(** Entry [k] of [linspace] before the last one is overwritten. *)
Definition point (start stop : float) (div k : nat) : float :=
  let delta := stop - start in
  let step := delta / of_int (Z.of_nat div) in
  (if step =? 0
   then of_int (Z.of_nat k) / of_int (Z.of_nat div) * delta
   else of_int (Z.of_nat k) * step) + start.

Section WithNumPy.

Context {NP : NumPy}.

(** [np.logspace(start, stop, num)] *)
Definition logspace (start stop : float) (num : nat) : list float :=
  map np_power10 (linspace start stop num).

(** [np.logspace(np.log10(min_pixels), np.log10(max_pixels), stages+1)/n_pixels] *)
Definition fractions (min_pixels max_pixels : Z) (stages : nat) (n_pixels : Z)
  : list float :=
  map (fun v => v / of_int n_pixels)
    (logspace (np_log10 (of_int min_pixels)) (np_log10 (of_int max_pixels))
       (stages + 1)).

End WithNumPy.

(** [fractions[-1]] *)
Definition final_fraction (fractions : list float) : result float :=
  match rev fractions with
  | f :: _ => Ok f
  | [] => Raise (IndexError 0)
  end.

(** [np.log10] and [np.power(10, .)] at the arguments that
    [subset_tempering(model, data, min_pixels=10, max_pixels=40000, stages=1)]
    passes them for a 200 x 200 image, with the float64 results numpy
    (and CPython's [math.log10] and [**]) give on x86-64 Linux:
    [log10(10.0) = 1.0], [log10(40000.0) = 4.6020599913279625],
    [10.0 ** 1.0 = 10.0] and
    [10.0 ** 4.6020599913279625 = 40000.00000000001].  These are the
    correctly rounded results: the decimal logarithm of 40000 is
    4.602059991327962390..., its nearest float64 is
    4.60205999132796250705..., and ten to that power is
    40000.0000000000107..., which lies between the two float64 numbers
    that follow 40000, 40000.0000000000072... and
    40000.0000000000145..., nearer to the first.  The call needs no
    other argument; elsewhere the table answers nan. *)
Definition log10_table (x : float) : float :=
  if x =? 10 then 1
  else if x =? 40000 then 0x1.268826a13ef40p+2
  else nan.

Definition power10_table (y : float) : float :=
  if y =? 1 then 10
  else if y =? 0x1.268826a13ef40p+2 then 0x1.3880000000001p+15
  else nan.

Definition numpy_observed : NumPy :=
  {| np_log10 := log10_table; np_power10 := power10_table |}.

(** The float64 numbers 0.00025 and 1.0000000000000002, the second being
    the float64 after 1. *)
Definition quarter_of_a_thousandth : float := 0x1.0624dd2f1a9fcp-12.

Definition one_and_an_ulp : float := 0x1.0000000000001p+0.

End Fractions64.

(** ** Emcee and subset tempering *)

Module Tempering.

Import Fractions.

(** [isinstance(data, Image)]: one frame, or a sequence of frames. *)
Inductive Frames (Image : Type) : Type :=
| SingleFrame (img : Image)
| FrameSequence (imgs : list Image).

Arguments SingleFrame {Image} img.
Arguments FrameSequence {Image} imgs.

(** What the scheduler calls and this file does not define: the priors of
    the [prior] module ([p.sample(size=n)], [prior.updated]), the images
    and [make_subset_data], [multiprocessing.cpu_count()], and emcee's
    [EnsembleSampler(...).run_mcmc(p0, n_samples)].  [World] is whatever
    the random draws depend on and change. *)
Class Externals : Type := {
  Prior : Type;
  Image : Type;
  World : Type;
  size : Image -> Z;
  make_subset_data : Image -> option R -> World -> Image * World;
  prior_sample : Prior -> nat -> World -> list Q * World;
  updated : Prior -> UncertainValue -> Q -> result Prior;
  cpu_count : nat;
  run_mcmc : Model Prior -> Frames Image -> nat -> option nat ->
             list Series -> nat -> World -> result (EnsembleSampler * World)
}.

Section Scheduler.

Context {E : Externals}.

(** Computations that draw random numbers and may raise. *)
Definition M (A : Type) : Type := World -> result (A * World).

Definition ret {A : Type} (a : A) : M A := fun w => Ok (a, w).

Definition bindM {A B : Type} (m : M A) (k : A -> M B) : M B :=
  fun w => match m w with
           | Ok (a, w') => k a w'
           | Raise e => Raise e
           end.

Definition lift {A : Type} (r : result A) : M A :=
  fun w => match r with Ok a => Ok (a, w) | Raise e => Raise e end.

Definition draw {A : Type} (f : World -> A * World) : M A :=
  fun w => Ok (f w).

Notation "x <~ m ;; k" := (bindM m (fun x => k))
  (at level 61, m at next level, right associativity).

Fixpoint mapM {A B : Type} (f : A -> M B) (l : list A) : M (list B) :=
  match l with
  | [] => ret []
  | a :: l' => b <~ f a ;; bs <~ mapM f l' ;; ret (b :: bs)
  end.

Fixpoint map_result {A B : Type} (f : A -> result B) (l : list A)
  : result (list B) :=
  match l with
  | [] => Ok []
  | a :: l' => b <- f a ;; bs <- map_result f l' ;; Ok (b :: bs)
  end.

(** [class Emcee]: the attributes [__init__] stores. *)
Record Emcee : Type := mkEmcee {
  e_model : Model Prior;
  n_frames : nat;
  e_data : Frames Image;
  nwalkers : nat;
  threads : option nat
}.

(** [preprocess = lambda x: x] when no hook is given. *)
Definition hook (preprocess : option (Image -> Image)) : Image -> Image :=
  match preprocess with
  | Some f => f
  | None => fun x => x
  end.

(** [Emcee.__init__(self, model, data, nwalkers, random_subset, threads, preprocess)] *)
Definition Emcee_init (model : Model Prior) (data : Frames Image)
  (nwalkers : nat) (random_subset : option R) (threads : option nat)
  (preprocess : option (Image -> Image)) : M Emcee :=
  let preprocess := hook preprocess in
  match data with
  | FrameSequence ds =>
      ds' <~ mapM (fun d => draw (make_subset_data (preprocess d) random_subset)) ds ;;
      ret (mkEmcee model (List.length ds) (FrameSequence ds') nwalkers threads)
  | SingleFrame d =>
      d' <~ draw (make_subset_data (preprocess d) random_subset) ;;
      ret (mkEmcee model 1 (SingleFrame d') nwalkers threads)
  end.

(** [np.vstack(columns).T].  [vstack] takes one column per parameter,
    refuses an empty list of columns and columns of different lengths,
    and stacks them into an array of shape (parameters, length); its
    transpose has one row per entry of a column. *)
Definition vstack_T (columns : list (list Q)) : result (list Series) :=
  match columns with
  | [] => Raise ValueError
  | c :: cs =>
      if forallb (fun c' => (List.length c' =? List.length c)%nat) cs
      then Ok (map (fun i => map (fun col => nth i col 0%Q) columns)
                 (seq 0 (List.length c)))
      else Raise ValueError
  end.

(** [np.vstack([p.sample(size=n) for p in ps]).T] *)
Definition draw_positions (n : nat) (ps : list Prior) : M (list Series) :=
  columns <~ mapM (fun p => draw (prior_sample p n)) ps ;;
  lift (vstack_T columns).

(** [Emcee.make_guess(self)] *)
Definition make_guess (self : Emcee) : M (list Series) :=
  draw_positions (nwalkers self) (parameters (e_model self)).

(** [Emcee.sample(self, n_samples, p0=None)] *)
Definition sample (self : Emcee) (n_samples : nat) (p0 : option (list Series))
  : M (EmceeResult Prior) :=
  p0 <~ match p0 with
        | None => make_guess self
        | Some p => ret p
        end ;;
  sampler <~ run_mcmc (e_model self) (e_data self) (nwalkers self)
               (threads self) p0 n_samples ;;
  ret (mkEmceeResult sampler (e_model self)).

(** [zip(parameters, values, extra_uncertainty)] *)
Fixpoint zip3 {A B C : Type} (a : list A) (b : list B) (c : list C)
  : list (A * B * C) :=
  match a, b, c with
  | x :: a', y :: b', z :: c' => (x, y, z) :: zip3 a' b' c'
  | _, _, _ => []
  end.

(** [EmceeResult.updated_priors(self, extra_uncertainty=None)] *)
Definition updated_priors (self : EmceeResult Prior)
  (extra_uncertainty : option (list Q)) : result (list Prior) :=
  let extra_uncertainty :=
    match extra_uncertainty with
    | Some e => e
    | None => repeat 0%Q (List.length (parameters (model self)))
    end in
  vs <- values self ;;
  map_result (fun p => updated (fst (fst p)) (snd (fst p)) (snd p))
    (zip3 (parameters (model self)) vs extra_uncertainty).

(** The [threads] argument: ['all'], or a count, or [None]. *)
Inductive threads_arg : Type :=
| ThreadsAll
| ThreadsGiven (t : option nat).

(** The preliminary stages: the body of
    [for fraction in stage_fractions:], threading [p0].  The timing and
    the log lines are left out. *)
Fixpoint stages_loop (model : Model Prior) (data : Frames Image)
  (nwalkers : nat) (threads : option nat) (stage_len : nat)
  (preprocess : Image -> Image) (stage_fractions : list R)
  (p0 : option (list Series)) : M (option (list Series)) :=
  match stage_fractions with
  | [] => ret p0
  | fraction :: rest =>
      emcee <~ Emcee_init model data nwalkers (Some fraction) threads
                 (Some preprocess) ;;
      result <~ sample emcee stage_len p0 ;;
      new_pars <~ lift (updated_priors result None) ;;
      p0' <~ draw_positions nwalkers new_pars ;;
      stages_loop model data nwalkers threads stage_len preprocess rest (Some p0')
  end.

(** [preprocess(data[0]).size] or [preprocess(data).size] *)
Definition n_pixels_of (preprocess : Image -> Image) (data : Frames Image)
  : result Z :=
  match data with
  | FrameSequence ds =>
      match ds with
      | d :: _ => Ok (size (preprocess d))
      | [] => Raise (IndexError 0)
      end
  | SingleFrame d => Ok (size (preprocess d))
  end.

(** [subset_tempering(model, data, final_len, nwalkers, min_pixels,
    max_pixels, threads, stages, stage_len, preprocess, verbose)] *)
Definition subset_tempering (model : Model Prior) (data : Frames Image)
  (final_len nwalkers : nat) (min_pixels max_pixels : Z)
  (threads : threads_arg) (stages stage_len : nat)
  (preprocess : option (Image -> Image)) : M (EmceeResult Prior) :=
  let threads :=
    match threads with
    | ThreadsAll => Some cpu_count
    | ThreadsGiven t => t
    end in
  let preprocess := hook preprocess in
  n_pixels <~ lift (n_pixels_of preprocess data) ;;
  let fractions := fractions min_pixels max_pixels stages n_pixels in
  let stage_fractions := stage_fractions fractions in
  final_fraction <~ lift (final_fraction fractions) ;;
  p0 <~ stages_loop model data nwalkers threads stage_len preprocess
          stage_fractions None ;;
  emcee <~ Emcee_init model data nwalkers (Some final_fraction) threads None ;;
  sample emcee final_len p0.

End Scheduler.

End Tempering.

(** ** The summarizer as the specification words it *)

Module Spec.

(** Step 2 of the credible-bound scan, read strictly: the smallest row
    position, in descending order, whose log-probability is below
    [lmax - 0.5]. *)
Fixpoint first_below (lmax : Q) (rows : DataFrame) (i : nat) : option nat :=
  match rows with
  | [] => None
  | r :: rest =>
      if negb (Qle_bool (lmax - (1#2)) (lnprob r)) then Some i
      else first_below lmax rest (S i)
  end.

(** Step 3 for one parameter: its own scan goes on only while its own
    accumulated bound still equals the MAP value [m]. *)
Fixpoint scan1 (f : Q -> Q -> Q) (m b : Q) (column : list Q) : Q :=
  match column with
  | [] => b
  | x :: rest => if Qeq_bool b m then scan1 f m (f b x) rest else b
  end.

Definition column (p : nat) (rows : DataFrame) : list Q :=
  map (fun r => nth p (pars r) 0) rows.

(** Steps 1 to 4. *)
Definition spec_values (d : DataFrame) : option (list UncertainValue) :=
  let s := sort_values d in
  match s with
  | [] => None
  | r0 :: _ =>
      let mp := pars r0 in
      match first_below (lnprob_max s) s 0 with
      | None => None
      | Some i =>
          let rest := skipn (i + 1) s in
          Some (map (fun p =>
                       let m := nth p mp 0 in
                       mkUncertainValue m
                         (scan1 Qmax m m (column p rest) - m)
                         (Some (m - scan1 Qmin m m (column p rest)))
                         1)
                  (seq 0 (List.length mp)))
      end
  end.

End Spec.

(** ** What the scan computes, stated on the sorted table *)

Module Scan.

(** Descending order of the [lnprob] column. *)
Definition desc (a b : Row) : Prop := lnprob b <= lnprob a.

(** Row [i] is the first, in the order of [s], whose log-probability is
    not above [lnprob_max s - 0.5]. *)
Definition first_at_or_below (s : DataFrame) (i : nat) : Prop :=
  (exists r, nth_error s i = Some r /\ lnprob r <= lnprob_max s - (1#2)) /\
  (forall j r, (j < i)%nat -> nth_error s j = Some r ->
               lnprob_max s - (1#2) < lnprob r).

(** The bound accumulated over the first [k] of [rows], all parameters
    at once. *)
Definition running (f : Q -> Q -> Q) (b : Series) (rows : DataFrame) (k : nat)
  : Series :=
  fold_left (map2 f) (map pars (firstn k rows)) b.

(** The scan started with bound [b] consumes [k] rows: before each of
    them some parameter's bound still equalled [mp]'s, and after them
    either no parameter's does or no row is left. *)
Definition stops_at (f : Q -> Q -> Q) (mp b : Series) (rows : DataFrame)
  (k : nat) : Prop :=
  (k <= List.length rows)%nat /\
  (forall k', (k' < k)%nat -> any_eq (running f b rows k') mp = true) /\
  (k = List.length rows \/ any_eq (running f b rows k) mp = false).

(** Every row has as many parameter cells as the first. *)
Definition rectangular (d : DataFrame) : Prop :=
  forall r r', In r d -> In r' d -> List.length (pars r) = List.length (pars r').

(** Both deviations of a summary are zero. *)
Definition zero_width (v : UncertainValue) : Prop :=
  plus v == 0 /\ exists m, minus v = Some m /\ m == 0.

(** Two parameters that leave the MAP value at different rows. *)
Definition table_two_parameters : DataFrame :=
  [mkRow [0; 0] 0; mkRow [9; 9] (-1); mkRow [1; 0] (-2); mkRow [2; 1] (-3)].

(** A row exactly [0.5] under the largest log-probability. *)
Definition table_on_threshold : DataFrame :=
  [mkRow [3] 0; mkRow [4] (-1#2); mkRow [5] (-1); mkRow [6] (-2)].

(** One row above all others, and two rows after the threshold row. *)
Definition table_dominated : DataFrame :=
  [mkRow [0] 0; mkRow [5] (-1); mkRow [7] (-2)].

End Scan.

(** ** A collapsed stage *)

Module Collapsed.

Import Tempering.
Import String.

(** Modelled from the spec: the [prior] module is not among the sources.
    A refined prior is what [sample_string] in [subset_tempering] prints
    of it, a name, [mu] and [sd]; the bounds it may carry are left out. *)
Record Gaussian : Type := mkGaussian {
  name : String.string;
  mu : Q;
  sd : Q
}.

(** Modelled from the spec: [prior.updated(prior, value, extra)] is not
    among the sources.  Section 4.4: the refinement rule turns a summary
    into a prior of the same family, "optionally inflating the derived
    uncertainty by a caller-supplied floor"; section 9: "the ancestor
    behavior silently produces a zero-variance refined prior when the
    posterior degenerates [...] rather than failing".  An absent [minus]
    stands for a symmetric uncertainty. *)
Definition gaussian_updated (p : Gaussian) (v : UncertainValue) (extra : Q)
  : result Gaussian :=
  let m := match minus v with Some m => m | None => plus v end in
  Ok (mkGaussian (name p) (value v) (Qmax (Qmax (plus v) m) extra)).

(** A source of standard normal variates, indexed by the number of
    variates drawn so far, and [p.sample(size=n)] on top of it. *)
Definition variate (k : nat) : Q := inject_Z (Z.of_nat k) + 3.

Definition gaussian_sample (p : Gaussian) (n : nat) (w : nat) : list Q * nat :=
  (map (fun k => mu p + sd p * variate k) (seq w n), (w + n)%nat).

(** A sampler run in which every walker stays where it was seeded and
    records one worse proposal one unit away. *)
Definition collapsed_run (model : Model Gaussian) (data : Frames nat)
  (nwalkers : nat) (threads : option nat) (p0 : list Series) (n : nat)
  (w : nat) : result (EnsembleSampler * nat) :=
  Ok (mkSampler
        (map (fun pos => [mkRow pos 0; mkRow (map (Qplus 1) pos) (-1)]) p0)
        [1],
      w).

Definition collapsed_env : Externals := {|
  Prior := Gaussian;
  Image := nat;
  World := nat;
  size := Z.of_nat;
  make_subset_data := fun img _ w => (img, w);
  prior_sample := gaussian_sample;
  updated := gaussian_updated;
  cpu_count := 1%nat;
  run_mcmc := collapsed_run
|}.

Definition model0 : Model Gaussian :=
  mkModel [mkGaussian "x"%string 0 1].

End Collapsed.

(** ** Saving an EmceeResult *)

Module PersistEmcee.

Import Persist.

Section WithYaml.

Variable Prior : Type.
Variable Yaml : Type.
Variable yaml_dump : Model Prior -> Yaml.

(** [EmceeResult.save(self, filename, burn_in=0, thin='acor', include_lnprob=True)]:
    [self._save(self.data_frame(burn_in, thin, include_lnprob), filename)].
    It is the inherited [_save], which reads [self.model] and nothing else
    of [self]; the frame is computed first, so a frame that raises leaves
    the files alone. *)
Definition EmceeResult_save (self : EmceeResult Prior)
  (filename : String.string) (burn_in : Z) (thin : thin_arg)
  (fs : FileSystem Yaml) : result (FileSystem Yaml) :=
  df <- data_frame self burn_in thin ;;
  Ok (_save yaml_dump (mkSamplingResult df (model self)) df filename fs).

End WithYaml.

End PersistEmcee.

(** ** Tables and chains for the properties below *)

Module Tables.

(** No two rows share a log-probability. *)
Definition distinct_lnprob (d : DataFrame) : Prop :=
  NoDup d /\
  forall r r', In r d -> In r' d -> lnprob r == lnprob r' -> r = r'.

(** The rows of [table_dominated] in another order. *)
Definition table_dominated_shuffled : DataFrame :=
  [mkRow [7] (-2); mkRow [0] 0; mkRow [5] (-1)].

(** Two walkers that have not taken a step. *)
Definition chain_empty : EmceeResult unit :=
  mkEmceeResult (mkSampler [[]; []] [1]) (mkModel [tt]).

(** A saved table, and a store that holds no file. *)
Definition result_dominated : SamplingResult unit :=
  mkSamplingResult Scan.table_dominated (mkModel [tt]).

Definition no_files : Persist.FileSystem (Model unit) := fun _ => None.

(** The positions an answer of [most_probable_values] holds. *)
Definition positions_of (res : mpv) : list Series :=
  match res with
  | Point v => [v]
  | Ambiguous vs => vs
  end.

End Tables.

(** A file name. *)

Module Files.

Import String.

Definition chain_h5 : string := "chain.h5"%string.

(** A store whose file [chain_h5] already holds a table under another
    key. *)
Definition with_background : Persist.FileSystem (Model unit) :=
  fun name =>
    if String.eqb name chain_h5
    then Some [("background"%string, @Persist.mkGroup (Model unit) [] None)]
    else None.

End Files.

(** ** A stage without any spread in log-probability *)

Module Flat.

Import Tempering Collapsed.

(** A sampler run that records, for every walker, its seed and nothing
    else, all at the same log-probability. *)
Definition flat_run (model : Model Gaussian) (data : Frames nat)
  (nwalkers : nat) (threads : option nat) (p0 : list Series) (n : nat)
  (w : nat) : result (EnsembleSampler * nat) :=
  Ok (mkSampler (map (fun pos => [mkRow pos 0]) p0) [1], w).

Definition flat_env : Externals := {|
  Prior := Gaussian;
  Image := nat;
  World := nat;
  size := Z.of_nat;
  make_subset_data := fun img _ w => (img, w);
  prior_sample := gaussian_sample;
  updated := gaussian_updated;
  cpu_count := 1%nat;
  run_mcmc := flat_run
|}.

(** The chain the one walker of [Collapsed.collapsed_run] leaves when it
    is seeded at 3, as the result of a stage. *)
Definition stage_result : EmceeResult Gaussian :=
  mkEmceeResult (mkSampler [[mkRow [3] 0; mkRow [4] (-1)]] [1]) model0.

End Flat.

(** * Theorems *)

Unset Implicit Arguments.

(** ** Facts about the sorted table and the two loops *)

Module SummarizerFacts.

Import Scan.

Lemma Qle_bool_false (x y : Q) : Qle_bool x y = false <-> y < x.
Proof.
  split; intro H.
  - apply Qnot_le_lt. intro Hle. apply Qle_bool_iff in Hle. congruence.
  - destruct (Qle_bool x y) eqn:Hb; [|reflexivity].
    apply Qle_bool_iff in Hb. exfalso. exact (Qlt_not_le _ _ H Hb).
Qed.

Lemma iloc_Some (d : DataFrame) (i : nat) (r : Row) :
  nth_error d i = Some r -> iloc d i = Ok r.
Proof. unfold iloc. intros ->. reflexivity. Qed.

Lemma iloc_None (d : DataFrame) (i : nat) :
  nth_error d i = None -> iloc d i = Raise (IndexError i).
Proof. unfold iloc. intros ->. reflexivity. Qed.

(** *** Sorting *)

Lemma insert_desc_perm (r : Row) (d : DataFrame) :
  Permutation (r :: d) (insert_desc r d).
Proof.
  induction d as [|r' d IH]; simpl.
  - apply Permutation_refl.
  - destruct (Qle_bool (lnprob r') (lnprob r)).
    + apply Permutation_refl.
    + eapply Permutation_trans; [apply perm_swap|].
      apply perm_skip. exact IH.
Qed.

Lemma sort_values_perm (d : DataFrame) : Permutation d (sort_values d).
Proof.
  induction d as [|r d IH]; simpl.
  - constructor.
  - eapply Permutation_trans; [|apply insert_desc_perm].
    apply perm_skip. exact IH.
Qed.

Lemma sort_values_length (d : DataFrame) :
  List.length (sort_values d) = List.length d.
Proof. symmetry. apply Permutation_length, sort_values_perm. Qed.

Lemma insert_desc_sorted (r : Row) (d : DataFrame) :
  StronglySorted desc d -> StronglySorted desc (insert_desc r d).
Proof.
  induction d as [|r' d IH]; intro Hs; simpl.
  - constructor; constructor.
  - destruct (Qle_bool (lnprob r') (lnprob r)) eqn:Hb.
    + apply Qle_bool_iff in Hb.
      constructor; [exact Hs|].
      constructor; [exact Hb|].
      inversion Hs as [|? ? _ Hall]; subst.
      eapply Forall_impl; [|exact Hall].
      intros a Ha. unfold desc in *. eapply Qle_trans; eassumption.
    + apply Qle_bool_false in Hb.
      inversion Hs as [|? ? Hs' Hall]; subst.
      constructor; [apply IH; exact Hs'|].
      eapply Permutation_Forall; [apply insert_desc_perm|].
      constructor; [|exact Hall].
      unfold desc. apply Qlt_le_weak. exact Hb.
Qed.

Lemma sort_values_sorted (d : DataFrame) : StronglySorted desc (sort_values d).
Proof.
  induction d as [|r d IH]; simpl.
  - constructor.
  - apply insert_desc_sorted. exact IH.
Qed.

(** *** The largest log-probability *)

Lemma lnprob_max_cons (r r' : Row) (d : DataFrame) :
  lnprob_max (r :: r' :: d) = Qmax (lnprob r) (lnprob_max (r' :: d)).
Proof. reflexivity. Qed.

Lemma lnprob_max_ge (d : DataFrame) (r : Row) :
  In r d -> lnprob r <= lnprob_max d.
Proof.
  induction d as [|a d IH]; intro Hin; [contradiction|].
  destruct d as [|b d].
  - destruct Hin as [->|[]]. simpl. apply Qle_refl.
  - rewrite lnprob_max_cons. destruct Hin as [->|Hin].
    + apply Q.le_max_l.
    + eapply Qle_trans; [apply IH; exact Hin|apply Q.le_max_r].
Qed.

Lemma lnprob_max_attained (d : DataFrame) :
  d <> [] -> exists r, In r d /\ lnprob r == lnprob_max d.
Proof.
  induction d as [|a d IH]; intro Hne; [congruence|].
  destruct d as [|b d].
  - exists a. split; [left; reflexivity|simpl; reflexivity].
  - rewrite lnprob_max_cons.
    destruct (Q.max_spec (lnprob a) (lnprob_max (b :: d))) as [[_ He]|[_ He]].
    + destruct IH as [r [Hin Hr]]; [discriminate|].
      exists r. split; [right; exact Hin|].
      rewrite He. exact Hr.
    + exists a. split; [left; reflexivity|]. symmetry. exact He.
Qed.

Lemma lnprob_max_perm (d d' : DataFrame) :
  Permutation d d' -> lnprob_max d == lnprob_max d'.
Proof.
  intro Hp. destruct d as [|a d].
  - apply Permutation_nil in Hp. subst. reflexivity.
  - assert (Hne' : d' <> []).
    { intro He. subst. apply Permutation_sym, Permutation_nil in Hp. discriminate. }
    destruct (lnprob_max_attained (a :: d)) as [r [Hin Hr]]; [discriminate|].
    destruct (lnprob_max_attained d' Hne') as [r' [Hin' Hr']].
    apply Qle_antisym.
    + rewrite <- Hr. apply lnprob_max_ge.
      eapply Permutation_in; eassumption.
    + rewrite <- Hr'. apply lnprob_max_ge.
      eapply Permutation_in; [apply Permutation_sym|]; eassumption.
Qed.

(** *** The threshold loop *)

Lemma threshold_loop_S (fuel : nat) (d : DataFrame) (i : nat) :
  threshold_loop (S fuel) d i =
  (r <- iloc d i ;;
   if negb (Qle_bool (lnprob r) (lnprob_max d - (1#2))) && (i <? shape0 d)%nat
   then threshold_loop fuel d (S i)
   else Ok i).
Proof. reflexivity. Qed.

(** When no row from [i] on is at or below the threshold the loop walks
    off the table: it reads position [d.shape[0]]. *)
Lemma threshold_loop_raises (d : DataFrame) (fuel i : nat) :
  (i <= shape0 d)%nat ->
  (shape0 d - i < fuel)%nat ->
  (forall j r, (i <= j)%nat -> nth_error d j = Some r ->
               lnprob_max d - (1#2) < lnprob r) ->
  threshold_loop fuel d i = Raise (IndexError (shape0 d)).
Proof.
  revert i. induction fuel as [|fuel IH]; intros i Hi Hf Habove; [lia|].
  rewrite threshold_loop_S.
  destruct (nth_error d i) as [r|] eqn:Hn.
  - rewrite (iloc_Some _ _ _ Hn). unfold bind.
    assert (Hlt : (i < shape0 d)%nat).
    { apply nth_error_Some. congruence. }
    pose proof (Habove i r (Nat.le_refl i) Hn) as Hr.
    apply Qle_bool_false in Hr. rewrite Hr.
    apply Nat.ltb_lt in Hlt. rewrite Hlt. simpl.
    apply Nat.ltb_lt in Hlt.
    apply IH; [lia|lia|].
    intros j r' Hj. apply Habove. lia.
  - rewrite (iloc_None _ _ Hn). unfold bind.
    apply nth_error_None in Hn. unfold shape0 in *.
    replace i with (List.length d) by lia. reflexivity.
Qed.

(** When row [j] is the first at or below the threshold the loop stops
    there. *)
Lemma threshold_loop_stops (d : DataFrame) (fuel i j : nat) (rj : Row) :
  (i <= j)%nat ->
  (shape0 d - i < fuel)%nat ->
  nth_error d j = Some rj ->
  lnprob rj <= lnprob_max d - (1#2) ->
  (forall k r, (i <= k < j)%nat -> nth_error d k = Some r ->
               lnprob_max d - (1#2) < lnprob r) ->
  threshold_loop fuel d i = Ok j.
Proof.
  revert i. induction fuel as [|fuel IH]; intros i Hi Hf Hj Hle Habove; [lia|].
  assert (Hjlt : (j < shape0 d)%nat).
  { apply nth_error_Some. congruence. }
  rewrite threshold_loop_S.
  destruct (Nat.eq_dec i j) as [->|Hne].
  - rewrite (iloc_Some _ _ _ Hj). unfold bind.
    apply Qle_bool_iff in Hle. rewrite Hle. reflexivity.
  - destruct (nth_error d i) as [r|] eqn:Hn.
    + rewrite (iloc_Some _ _ _ Hn). unfold bind.
      assert (Hr : lnprob_max d - (1#2) < lnprob r).
      { apply (Habove i); [lia|exact Hn]. }
      apply Qle_bool_false in Hr. rewrite Hr.
      assert (Hlt : (i <? shape0 d)%nat = true) by (apply Nat.ltb_lt; lia).
      rewrite Hlt. simpl.
      apply IH; [lia|lia|exact Hj|exact Hle|].
      intros k r' Hk. apply Habove. lia.
    + apply nth_error_None in Hn. unfold shape0 in *. lia.
Qed.

(** *** The bound loop *)

Lemma find_bound_loop_S (fuel : nat) (d : DataFrame) (mp : Series)
  (f : Q -> Q -> Q) (b : Series) (i : nat) :
  find_bound_loop (S fuel) d mp f b i =
  if any_eq b mp && (i <? shape0 d)%nat
  then r <- iloc d i ;; find_bound_loop fuel d mp f (map2 f b (pars r)) (S i)
  else Ok b.
Proof. reflexivity. Qed.

Lemma skipn_nth_error {A : Type} (l : list A) (i : nat) (a : A) :
  nth_error l i = Some a -> skipn i l = a :: skipn (S i) l.
Proof.
  revert i. induction l as [|x l IH]; intros [|i] H; simpl in *; try discriminate.
  - congruence.
  - apply IH. exact H.
Qed.

Lemma running_0 (f : Q -> Q -> Q) (b : Series) (rows : DataFrame) :
  running f b rows 0 = b.
Proof. reflexivity. Qed.

Lemma running_S (f : Q -> Q -> Q) (b : Series) (r : Row) (rows : DataFrame)
  (k : nat) :
  running f b (r :: rows) (S k) = running f (map2 f b (pars r)) rows k.
Proof. reflexivity. Qed.

(** The loop ends, and ends on the bound accumulated over the rows it
    consumed, jointly for all parameters. *)
Lemma find_bound_loop_spec (d : DataFrame) (mp : Series) (f : Q -> Q -> Q)
  (fuel : nat) (b : Series) (i : nat) :
  (shape0 d - i < fuel)%nat ->
  exists k,
    stops_at f mp b (skipn i d) k /\
    find_bound_loop fuel d mp f b i = Ok (running f b (skipn i d) k).
Proof.
  revert b i. induction fuel as [|fuel IH]; intros b i Hf; [lia|].
  rewrite find_bound_loop_S.
  destruct (any_eq b mp) eqn:Hany; simpl.
  - destruct (i <? shape0 d)%nat eqn:Hlt.
    + apply Nat.ltb_lt in Hlt.
      destruct (nth_error d i) as [r|] eqn:Hn;
        [|apply nth_error_None in Hn; unfold shape0 in *; lia].
      rewrite (iloc_Some _ _ _ Hn). unfold bind.
      rewrite (skipn_nth_error _ _ _ Hn).
      destruct (IH (map2 f b (pars r)) (S i)) as [k [[Hk [Hbefore Hafter]] Hrun]];
        [lia|].
      exists (S k). split; [|rewrite running_S; exact Hrun].
      split; [cbn [List.length]; lia|]. split.
      * intros [|k'] Hk'; [rewrite running_0; exact Hany|].
        rewrite running_S. apply Hbefore. lia.
      * rewrite running_S. cbn [List.length].
        destruct Hafter as [->|Hafter]; auto.
    + apply Nat.ltb_ge in Hlt.
      rewrite skipn_all2 by exact Hlt.
      exists 0%nat. split; [|reflexivity].
      split; [simpl; lia|]. split; [intros k' Hk'; lia|left; reflexivity].
  - exists 0%nat. split; [|reflexivity].
    split; [lia|]. split; [intros k' Hk'; lia|right; exact Hany].
Qed.

Lemma find_bound_spec (d : DataFrame) (r0 : Row) (f : Q -> Q -> Q) (i : nat) :
  nth_error d 0 = Some r0 ->
  exists k,
    stops_at f (pars r0) (pars r0) (skipn i d) k /\
    find_bound d (pars r0) f i = Ok (running f (pars r0) (skipn i d) k).
Proof.
  intro H0. unfold find_bound. rewrite (iloc_Some _ _ _ H0). unfold bind.
  apply find_bound_loop_spec. lia.
Qed.

(** *** The summarizer *)

(** It returns as soon as some row is at or below the threshold, and
    what it returns is put together from the two joint scans. *)
Lemma values_returns (d : DataFrame) (i : nat) :
  first_at_or_below (sort_values d) i ->
  exists r0 ku kl,
    nth_error (sort_values d) 0 = Some r0 /\
    stops_at Qmax (pars r0) (pars r0) (skipn (i + 1) (sort_values d)) ku /\
    stops_at Qmin (pars r0) (pars r0) (skipn (i + 1) (sort_values d)) kl /\
    _values d =
    Ok (uncertain_values (pars r0)
          (running Qmax (pars r0) (skipn (i + 1) (sort_values d)) ku)
          (running Qmin (pars r0) (skipn (i + 1) (sort_values d)) kl)).
Proof.
  intros [[ri [Hi Hle]] Habove].
  set (s := sort_values d) in *.
  destruct (nth_error s 0) as [r0|] eqn:H0.
  2:{ apply nth_error_None in H0.
      assert (i < List.length s)%nat by (apply nth_error_Some; congruence). lia. }
  destruct (find_bound_spec s r0 Qmax (i + 1) H0) as [ku [Hku Hup]].
  destruct (find_bound_spec s r0 Qmin (i + 1) H0) as [kl [Hkl Hlo]].
  exists r0, ku, kl. repeat split; try assumption; try apply Hku; try apply Hkl.
  unfold _values. fold s. rewrite (iloc_Some _ _ _ H0). unfold bind at 1.
  rewrite (threshold_loop_stops s (S (shape0 s)) 0 i ri);
    try assumption; try lia.
  - unfold bind at 1. rewrite Hup. unfold bind at 1. rewrite Hlo. reflexivity.
  - intros k r Hk. apply Habove. lia.
Qed.

(** It raises when every row is above the threshold. *)
Lemma values_raises (d : DataFrame) :
  d <> [] ->
  (forall r, In r d -> lnprob_max d - (1#2) < lnprob r) ->
  _values d = Raise (IndexError (shape0 d)).
Proof.
  intros Hne Hall.
  pose proof (sort_values_perm d) as Hp.
  set (s := sort_values d) in *.
  destruct (nth_error s 0) as [r0|] eqn:H0.
  2:{ apply nth_error_None in H0. destruct s; [|simpl in H0; lia].
      apply Permutation_sym, Permutation_nil in Hp. contradiction. }
  unfold _values. fold s. rewrite (iloc_Some _ _ _ H0). unfold bind at 1.
  rewrite threshold_loop_raises; try lia.
  - unfold bind. unfold shape0. f_equal. f_equal.
    symmetry. apply Permutation_length. exact Hp.
  - intros j r _ Hj.
    assert (Hin : In r d).
    { eapply Permutation_in; [apply Permutation_sym; exact Hp|].
      eapply nth_error_In; exact Hj. }
    rewrite <- (lnprob_max_perm _ _ Hp). apply Hall. exact Hin.
Qed.

(** The two loops are given enough fuel: the summarizer either returns
    or raises the [IndexError] of a positional read, never [Diverged]. *)
Lemma threshold_loop_total (d : DataFrame) (fuel i : nat) :
  (shape0 d - i < fuel)%nat ->
  (exists j, threshold_loop fuel d i = Ok j) \/
  (exists n, threshold_loop fuel d i = Raise (IndexError n)).
Proof.
  revert i. induction fuel as [|fuel IH]; intros i Hf; [lia|].
  rewrite threshold_loop_S. unfold iloc.
  destruct (nth_error d i) as [r|] eqn:Hn; cbn [bind].
  - destruct (negb _ && _).
    + apply IH.
      assert (i < shape0 d)%nat by (apply nth_error_Some; congruence). lia.
    + left. exists i. reflexivity.
  - right. exists i. reflexivity.
Qed.

Lemma values_total (d : DataFrame) :
  (exists uvs, _values d = Ok uvs) \/
  (exists n, _values d = Raise (IndexError n)).
Proof.
  unfold _values.
  destruct (nth_error (sort_values d) 0) as [r0|] eqn:H0.
  - rewrite (iloc_Some _ _ _ H0). cbn [bind].
    destruct (threshold_loop_total (sort_values d) (S (shape0 (sort_values d))) 0)
      as [[j Hj]|[n Hn]]; [lia| |].
    + rewrite Hj. cbn [bind].
      destruct (find_bound_spec (sort_values d) r0 Qmax (j + 1) H0) as [ku [_ Hu]].
      destruct (find_bound_spec (sort_values d) r0 Qmin (j + 1) H0) as [kl [_ Hl]].
      rewrite Hu, Hl. cbn [bind]. left. eexists. reflexivity.
    + rewrite Hn. right. exists n. reflexivity.
  - rewrite (iloc_None _ _ H0). right. exists 0%nat. reflexivity.
Qed.

Lemma uncertain_values_nth (mp upper lower : Series) (p : nat) (m u l : Q) :
  nth_error mp p = Some m ->
  nth_error upper p = Some u ->
  nth_error lower p = Some l ->
  nth_error (uncertain_values mp upper lower) p =
  Some (mkUncertainValue m (u - m) (Some (m - l)) 1).
Proof.
  revert upper lower p.
  induction mp as [|m0 mp IH]; intros [|u0 upper] [|l0 lower] [|p] Hm Hu Hl;
    simpl in *; try discriminate.
  - injection Hm as ->. injection Hu as ->. injection Hl as ->. reflexivity.
  - apply IH; assumption.
Qed.

Lemma uncertain_values_same (mp : Series) :
  List.length (uncertain_values mp mp mp) = List.length mp /\
  Forall zero_width (uncertain_values mp mp mp).
Proof.
  induction mp as [|m mp [IHl IHz]].
  - split; [reflexivity|constructor].
  - split; [simpl; f_equal; exact IHl|].
    simpl. constructor; [|exact IHz].
    split; simpl.
    + unfold Qminus. apply Qplus_opp_r.
    + exists (m - m). split; [reflexivity|]. unfold Qminus. apply Qplus_opp_r.
Qed.

Lemma sorted_head_highest (s : DataFrame) (r0 : Row) :
  StronglySorted desc s -> nth_error s 0 = Some r0 ->
  forall r, In r s -> lnprob r <= lnprob r0.
Proof.
  intros Hs H0 r Hin. destruct s as [|a s]; [discriminate|].
  simpl in H0. injection H0 as ->.
  destruct Hin as [->|Hin]; [apply Qle_refl|].
  inversion Hs as [|? ? _ Hall]; subst.
  rewrite Forall_forall in Hall. apply Hall. exact Hin.
Qed.

End SummarizerFacts.

Import Scan SummarizerFacts.

(** ** The claims about the summarizer *)

(** C10.  On every non-empty table all of whose rows lie above
    [Lmax - 0.5] (a single row, or rows with equal log-probabilities), the
    threshold scan of [_values] reads the row at position [d.shape[0]]:
    it walks over all rows, raises [IndexError] there, and [_values]
    raises with it and returns no summary. *)
Theorem values_raises_without_drop (d : DataFrame) :
  d <> [] ->
  (forall r, In r d -> lnprob_max d - (1#2) < lnprob r) ->
  threshold_loop (S (shape0 (sort_values d))) (sort_values d) 0 =
    Raise (IndexError (shape0 d)) /\
  _values d = Raise (IndexError (shape0 d)).
Proof.
  intros Hne Hall. split; [|apply values_raises; assumption].
  pose proof (sort_values_perm d) as Hp.
  rewrite threshold_loop_raises.
  - unfold shape0. rewrite sort_values_length. reflexivity.
  - lia.
  - lia.
  - intros j r _ Hj.
    rewrite <- (lnprob_max_perm _ _ Hp). apply Hall.
    eapply Permutation_in; [apply Permutation_sym; exact Hp|].
    eapply nth_error_In; exact Hj.
Qed.

Lemma values_raises_single_row :
  threshold_loop 2 [mkRow [3] 0] 0 = Raise (IndexError 1) /\
  _values [mkRow [3] 0] = Raise (IndexError 1).
Proof.
  apply (values_raises_without_drop [mkRow [3] 0]).
  - discriminate.
  - intros r [<-|[]]. reflexivity.
Defined.







(** ** UncertainValue *)

(** C6, as the code has it.  An [UncertainValue] built without [minus]
    stores [None] there, the marker of a symmetric uncertainty, and not
    the [plus] deviation; a [minus] that is given is stored as given,
    whatever [plus] is. *)
Theorem init_minus_stored_as_given (v p : Q) (n : option Q) :
  minus (__init__ v p None n) = None /\
  forall m, minus (__init__ v p (Some m) n) = Some m.
Proof.
  split.
  - reflexivity.
  - intro m. reflexivity.
Qed.

(** C6 fails as stated: [UncertainValue(5, 0.2)] does not store [0.2] as
    its [minus]. *)
Lemma init_minus_default_is_not_plus :
  minus (__init__ 5 (1#5) None None) <> Some (plus (__init__ 5 (1#5) None None)).
Proof. discriminate. Qed.

(** ** Saving and loading *)

Module PersistFacts.

Import Persist.

Section WithYaml.

Variable Prior : Type.
Variable Yaml : Type.
Variable yaml_dump : Model Prior -> Yaml.
Variable yaml_load : Yaml -> Model Prior.

Lemma get_put_group (key : String.string) (g : Group Yaml) (f : H5File Yaml) :
  get_group key (put_group key g f) = Some g.
Proof. unfold put_group. cbn [get_group]. rewrite String.eqb_refl. reflexivity. Qed.

Lemma get_remove_group (key other : String.string) (f : H5File Yaml) :
  other <> key ->
  get_group other (remove_group key f) = get_group other f.
Proof.
  intro Hne. unfold remove_group.
  induction f as [|[k g] f IH]; [reflexivity|].
  cbn [filter fst get_group].
  destruct (String.eqb k key) eqn:Hk; cbn [negb get_group].
  - apply String.eqb_eq in Hk. subst k.
    assert (Hko : String.eqb key other = false).
    { apply String.eqb_neq. congruence. }
    rewrite Hko. exact IH.
  - destruct (String.eqb k other); [reflexivity|exact IH].
Qed.

Lemma remove_group_twice (key : String.string) (f : H5File Yaml) :
  remove_group key (remove_group key f) = remove_group key f.
Proof.
  unfold remove_group. induction f as [|[k g] f IH]; [reflexivity|].
  cbn [filter fst]. destruct (String.eqb k key) eqn:Hk; cbn [negb].
  - exact IH.
  - cbn [filter fst]. rewrite Hk. cbn [negb]. f_equal. exact IH.
Qed.

Lemma remove_put_group (key : String.string) (g : Group Yaml) (f : H5File Yaml) :
  remove_group key (put_group key g f) = remove_group key f.
Proof.
  unfold put_group. unfold remove_group at 1. cbn [filter fst].
  rewrite String.eqb_refl. cbn [negb]. apply remove_group_twice.
Qed.

(** After [_save] the file holds the frame and the model under
    ['samples'], next to the groups it held under other keys. *)
Lemma _save_writes (self : SamplingResult Prior) (df : DataFrame)
  (filename : String.string) (fs : FileSystem Yaml) :
  _save yaml_dump self df filename fs filename =
  Some ((groupname, mkGroup df (Some (yaml_dump (sr_model self))))
          :: remove_group groupname (contents fs filename)).
Proof.
  unfold _save, to_hdf, write_file.
  rewrite String.eqb_refl, get_put_group. cbn [table].
  rewrite String.eqb_refl. unfold put_group at 1.
  rewrite remove_put_group. reflexivity.
Qed.

Lemma _save_elsewhere (self : SamplingResult Prior) (df : DataFrame)
  (filename other : String.string) (fs : FileSystem Yaml) :
  other <> filename ->
  _save yaml_dump self df filename fs other = fs other.
Proof.
  intro Hne. apply String.eqb_neq in Hne.
  unfold _save, to_hdf, write_file.
  rewrite String.eqb_refl, get_put_group. rewrite Hne. reflexivity.
Qed.

(** The function beside it does return what was saved, provided the
    model survives [yaml.dump] and [yaml.load] and the file holds no
    group under another key; with such a group its read without a key
    raises. *)
Lemma load_sampling_after__save (self : SamplingResult Prior) (df : DataFrame)
  (filename : String.string) (fs : FileSystem Yaml) :
  load_sampling yaml_load filename (_save yaml_dump self df filename fs) =
  match remove_group groupname (contents fs filename) with
  | [] => Ok (mkSamplingResult df (yaml_load (yaml_dump (sr_model self))))
  | _ :: _ => Raise ValueError
  end.
Proof.
  unfold load_sampling, read_hdf. rewrite _save_writes.
  destruct (remove_group groupname (contents fs filename)) as [|kg rest].
  - cbn [bind table get_group]. rewrite String.eqb_refl.
    cbn [bind model_attr]. reflexivity.
  - destruct kg. reflexivity.
Qed.

Lemma load_sampling_after_save (r : SamplingResult Prior)
  (filename : String.string) (fs : FileSystem Yaml) :
  yaml_load (yaml_dump (sr_model r)) = sr_model r ->
  remove_group groupname (contents fs filename) = [] ->
  load_sampling yaml_load filename (save yaml_dump r filename fs) = Ok r.
Proof.
  intros Hyaml Hfresh. unfold save.
  rewrite load_sampling_after__save, Hfresh, Hyaml. destruct r. reflexivity.
Qed.

(** C5 does not hold of the code.  Whatever was saved,
    [SamplingResult.load] reads the table and returns Python's [None]:
    no [SamplingResult] comes back. *)
Theorem load_after_save_is_None (r : SamplingResult Prior)
  (filename : String.string) (fs : FileSystem Yaml) :
  @load Prior Yaml filename (save yaml_dump r filename fs) = Ok None.
Proof.
  unfold load, read_hdf_key, save. rewrite _save_writes.
  cbn [get_group]. rewrite String.eqb_refl. reflexivity.
Qed.

End WithYaml.

End PersistFacts.

(** ** Slices and thinning *)

Module SliceFacts.

Lemma every_aux_nth {A : Type} (k : nat) (l : list A) :
  (1 <= k)%nat ->
  forall skip j, nth_error (every_aux k skip l) j = nth_error l (skip + j * k).
Proof.
  intro Hk. induction l as [|x l IH]; intros skip j.
  - simpl. rewrite !nth_error_nil. reflexivity.
  - destruct skip as [|skip]; simpl.
    + destruct j as [|j]; [reflexivity|].
      simpl. rewrite IH.
      replace (k + j * k)%nat with (S (k - 1 + j * k)) by lia.
      reflexivity.
    + apply IH.
Qed.

Lemma every_aux_map {A B : Type} (g : A -> B) (k : nat) (l : list A) :
  forall skip, every_aux k skip (map g l) = map g (every_aux k skip l).
Proof.
  induction l as [|x l IH]; intro skip; [reflexivity|].
  destruct skip as [|skip]; simpl.
  - f_equal. apply IH.
  - apply IH.
Qed.

Lemma slice_nz_map {A B : Type} (g : A -> B) (start step : Z) (l : list A) :
  slice_nz start step (map g l) = map g (slice_nz start step l).
Proof.
  unfold slice_nz, every. rewrite length_map.
  destruct (0 <? step)%Z.
  - rewrite skipn_map. apply every_aux_map.
  - rewrite firstn_map, <- map_rev. apply every_aux_map.
Qed.

(** With a start that is not negative and a positive step the slice
    holds the positions [start], [start + step], [start + 2 step], ... *)
Lemma slice_nz_nth {A : Type} (start : nat) (step : Z) (l : list A) :
  (1 <= step)%Z ->
  forall j,
    nth_error (slice_nz (Z.of_nat start) step l) j =
    nth_error l (start + j * Z.to_nat step).
Proof.
  intros Hstep j. unfold slice_nz, every.
  assert (Hpos : (0 <? step)%Z = true) by (apply Z.ltb_lt; lia).
  assert (Hneg : (Z.of_nat start <? 0)%Z = false) by (apply Z.ltb_ge; lia).
  rewrite Hpos, Hneg.
  rewrite every_aux_nth by lia.
  rewrite nth_error_skipn. simpl.
  destruct (Nat.le_gt_cases start (List.length l)) as [Hle|Hgt].
  - rewrite Z.min_l by lia. rewrite Nat2Z.id. reflexivity.
  - rewrite Z.min_r by lia. rewrite Nat2Z.id.
    transitivity (@None A); [|symmetry]; apply nth_error_None; lia.
Qed.

(** The same for any start: a negative one counts from the end. *)
Lemma slice_nz_nth_from {A : Type} (start step : Z) (l : list A) :
  (1 <= step)%Z ->
  forall j,
    nth_error (slice_nz start step l) j =
    nth_error l
      (Z.to_nat (if (start <? 0)%Z
                 then Z.max (start + Z.of_nat (List.length l)) 0
                 else start)
       + j * Z.to_nat step).
Proof.
  intros Hstep j. unfold slice_nz, every.
  assert (Hpos : (0 <? step)%Z = true) by (apply Z.ltb_lt; lia).
  rewrite Hpos. rewrite every_aux_nth by lia.
  rewrite nth_error_skipn. cbn [Nat.add].
  destruct (start <? 0)%Z eqn:Hneg; [reflexivity|].
  apply Z.ltb_ge in Hneg.
  destruct (Z.le_gt_cases start (Z.of_nat (List.length l))) as [Hle|Hgt].
  - rewrite Z.min_l by lia. reflexivity.
  - rewrite Z.min_r by lia. rewrite Nat2Z.id.
    transitivity (@None A); [|symmetry]; apply nth_error_None; lia.
Qed.

Lemma every_1 {A : Type} (l : list A) : every 1 l = l.
Proof.
  unfold every. induction l as [|x l IH]; [reflexivity|].
  simpl. f_equal. exact IH.
Qed.

Lemma slice_nz_whole {A : Type} (l : list A) : slice_nz 0 1 l = l.
Proof.
  unfold slice_nz. cbn [Z.ltb Z.compare].
  rewrite Z.min_l by lia. change (Z.to_nat 1) with 1%nat.
  change (Z.to_nat 0) with 0%nat. cbn [skipn]. apply every_1.
Qed.

End SliceFacts.

(** ** Thinning and the MAP point *)

Module ResultsFacts.

Import SliceFacts.

Lemma Qmax_case (x y : Q) : Qmax x y = x \/ Qmax x y = y.
Proof.
  unfold Qmax, GenericMinMax.gmax. destruct (x ?= y); auto.
Qed.

Lemma py_max_cons (x y : Q) (l : list Q) :
  py_max (x :: y :: l) = (m <- py_max (y :: l) ;; Ok (Qmax x m)).
Proof. reflexivity. Qed.

(** Python's [max] returns an element that no element exceeds. *)
Lemma py_max_spec (l : list Q) (m : Q) :
  py_max l = Ok m -> In m l /\ forall a, In a l -> a <= m.
Proof.
  revert m. induction l as [|x l IH]; intros m H; [discriminate|].
  destruct l as [|y l].
  - injection H as <-. split; [left; reflexivity|].
    intros a [<-|[]]. apply Qle_refl.
  - rewrite py_max_cons in H.
    destruct (py_max (y :: l)) as [m'|e] eqn:Hm; [|discriminate].
    injection H as <-. destruct (IH m' eq_refl) as [Hin Hge]. split.
    + destruct (Qmax_case x m') as [->| ->]; [left; reflexivity|right; exact Hin].
    + intros a [<-|Ha]; [apply Q.le_max_l|].
      eapply Qle_trans; [apply Hge; exact Ha|apply Q.le_max_r].
Qed.

Lemma int_ge_1 (q : Q) : 1 <= q -> (1 <= int q)%Z.
Proof.
  intro H. unfold int.
  assert (H0 : Qle_bool 0 q = true).
  { apply Qle_bool_iff. eapply Qle_trans; [|exact H]. discriminate. }
  rewrite H0. change 1%Z with (Qfloor (inject_Z 1)).
  apply Qfloor_resp_le. exact H.
Qed.

Lemma frame_of_rows (rows : DataFrame) :
  frame_of (map pars rows) (map lnprob rows) = Ok rows.
Proof.
  unfold frame_of. rewrite !length_map, Nat.eqb_refl. f_equal.
  induction rows as [|[p l] rows IH]; [reflexivity|].
  simpl. f_equal. exact IH.
Qed.

Lemma concat_map_slices {B : Type} (g : Row -> B) (start step : Z)
  (ws : list (list Row)) :
  concat (map (slice_nz start step) (map (map g) ws)) =
  map g (concat (map (slice_nz start step) ws)).
Proof.
  rewrite concat_map, !map_map. f_equal.
  apply map_ext. intro w. apply slice_nz_map.
Qed.

Section WithPrior.

Variable Prior : Type.

(** The frame is the walkers' slices, one after the other. *)
Lemma data_frame_sliced (r : EmceeResult Prior) (burn_in : Z) (thin : thin_arg)
  (stride : Z) :
  thin_stride r thin = Ok stride ->
  stride <> 0%Z ->
  data_frame r burn_in thin =
  Ok (concat (map (slice_nz burn_in stride) (walkers (sampler r)))).
Proof.
  intros Hs Hnz. unfold data_frame. rewrite Hs. cbn [bind].
  unfold slice_axis1. apply Z.eqb_neq in Hnz. rewrite Hnz. cbn [bind].
  unfold chain, lnprobability. rewrite !concat_map_slices.
  apply frame_of_rows.
Qed.

Lemma data_frame_unthinned (r : EmceeResult Prior) :
  data_frame r 0 ThinNone = Ok (concat (walkers (sampler r))).
Proof.
  rewrite (data_frame_sliced r 0 ThinNone 1); [|reflexivity|discriminate].
  do 2 f_equal. rewrite <- (map_id (walkers (sampler r))) at 2.
  apply map_ext. intro w. apply slice_nz_whole.
Qed.


Lemma py_max_lnprob (d : DataFrame) :
  d <> [] -> py_max (map lnprob d) = Ok (lnprob_max d).
Proof.
  induction d as [|a d IH]; intro Hne; [congruence|].
  destruct d as [|b d]; [reflexivity|].
  cbn [map]. rewrite py_max_cons. cbn [map] in IH.
  rewrite IH by discriminate. reflexivity.
Qed.

Lemma filter_combine_rows (m : Q) (d : DataFrame) :
  map fst (filter (fun pl : Series * Q => Qeq_bool (snd pl) m)
             (combine (map pars d) (map lnprob d))) =
  map pars (filter (fun r => Qeq_bool (lnprob r) m) d).
Proof.
  induction d as [|a d IH]; [reflexivity|].
  simpl. destruct (Qeq_bool (lnprob a) m); simpl; [f_equal|]; exact IH.
Qed.

(** The top row of the sorted table is the first row of the table that
    no row exceeds. *)
Lemma sort_values_head (d : DataFrame) (r0 : Row) :
  nth_error (sort_values d) 0 = Some r0 ->
  exists pre post,
    d = pre ++ r0 :: post /\
    (forall r, In r pre -> lnprob r < lnprob r0) /\
    (forall r, In r post -> lnprob r <= lnprob r0).
Proof.
  revert r0. induction d as [|a d IH]; intros r0 H0; [discriminate|].
  simpl in H0. destruct (sort_values d) as [|r' s] eqn:Hs.
  - assert (d = []).
    { destruct d; [reflexivity|].
      pose proof (sort_values_length (r :: d)) as Hl.
      rewrite Hs in Hl. discriminate. }
    subst. simpl in H0. injection H0 as <-.
    exists [], []. split; [reflexivity|]. split; intros r [].
  - destruct (IH r' eq_refl) as [pre [post [Hd [Hpre Hpost]]]].
    simpl in H0. destruct (Qle_bool (lnprob r') (lnprob a)) eqn:Hb.
    + simpl in H0. injection H0 as <-.
      apply Qle_bool_iff in Hb.
      exists [], d. split; [reflexivity|]. split; [intros r []|].
      intros r Hin. rewrite Hd in Hin. apply in_app_or in Hin.
      destruct Hin as [Hin|[<-|Hin]].
      * apply Qlt_le_weak. eapply Qlt_le_trans; [apply Hpre; exact Hin|exact Hb].
      * exact Hb.
      * eapply Qle_trans; [apply Hpost; exact Hin|exact Hb].
    + simpl in H0. injection H0 as <-.
      apply Qle_bool_false in Hb.
      exists (a :: pre), post. split; [rewrite Hd; reflexivity|].
      split; [|exact Hpost].
      intros r [<-|Hin]; [exact Hb|apply Hpre; exact Hin].
Qed.

Lemma map2_length (f : Q -> Q -> Q) (b s : Series) :
  List.length b = List.length s -> List.length (map2 f b s) = List.length b.
Proof.
  revert s. induction b as [|x b IH]; intros [|y s] H; simpl in *;
    try discriminate; [reflexivity|].
  f_equal. apply IH. lia.
Qed.

Lemma running_length (f : Q -> Q -> Q) (rows : DataFrame) (k : nat) :
  forall b,
    (forall r, In r rows -> List.length (pars r) = List.length b) ->
    List.length (running f b rows k) = List.length b.
Proof.
  revert k. induction rows as [|r rows IH]; intros k b Hrows.
  - destruct k; reflexivity.
  - destruct k as [|k]; [reflexivity|].
    rewrite running_S. rewrite IH.
    + apply map2_length. symmetry. apply Hrows. left. reflexivity.
    + intros r' Hin. rewrite map2_length.
      * apply Hrows. right. exact Hin.
      * symmetry. apply Hrows. left. reflexivity.
Qed.

Lemma map_value_uncertain_values (mp upper lower : Series) :
  List.length upper = List.length mp ->
  List.length lower = List.length mp ->
  map value (uncertain_values mp upper lower) = mp.
Proof.
  revert upper lower.
  induction mp as [|m mp IH]; intros [|u upper] [|l lower] Hu Hl;
    simpl in *; try discriminate; [reflexivity|].
  f_equal. apply IH; lia.
Qed.

(** [most_probable_values] answers with one point only when that point
    is the first position, walker after walker, of the largest
    log-probability. *)
Lemma most_probable_point (r : EmceeResult Prior) (v : Series) :
  most_probable_values r = Ok (Point v) ->
  exists rest,
    map pars
      (filter (fun x => Qeq_bool (lnprob x)
                          (lnprob_max (concat (walkers (sampler r)))))
         (concat (walkers (sampler r)))) = v :: rest.
Proof.
  unfold most_probable_values, chain, lnprobability.
  rewrite <- !concat_map.
  set (d := concat (walkers (sampler r))).
  destruct d as [|a d'] eqn:Hd; [discriminate|].
  rewrite <- Hd. rewrite py_max_lnprob by (rewrite Hd; discriminate).
  cbn [bind]. rewrite filter_combine_rows.
  destruct (map pars (filter _ d)) as [|v0 vals]; [discriminate|].
  cbn [reduce_axis0 bind].
  destruct (any_neq _ _); [discriminate|].
  intro H. injection H as <-. exists vals. reflexivity.
Qed.

(** C8, as the code has it.  When the largest log-probability of the
    chain is reached at one parameter vector, so that
    [most_probable_values] answers with a point, and some row lies at or
    below [Lmax - 0.5], [values()] on the unthinned chain returns, and
    the values of its summary are that point. *)
Theorem values_map_is_most_probable (r : EmceeResult Prior) (v : Series)
  (i : nat) :
  rectangular (concat (walkers (sampler r))) ->
  first_at_or_below (sort_values (concat (walkers (sampler r)))) i ->
  most_probable_values r = Ok (Point v) ->
  exists uvs, values r = Ok uvs /\ map value uvs = v.
Proof.
  intros Hrect Hi Hmpv.
  destruct (most_probable_point r v Hmpv) as [rest Hvals].
  assert (Hvalues : values r = _values (concat (walkers (sampler r)))).
  { unfold values. rewrite data_frame_unthinned. reflexivity. }
  rewrite Hvalues. clear Hvalues Hmpv.
  remember (concat (walkers (sampler r))) as d eqn:Ed. clear Ed.
  destruct (values_returns d i Hi) as [r0 [ku [kl [H0 [_ [_ Hv]]]]]].
  assert (Hin0 : In r0 d).
  { eapply Permutation_in; [apply Permutation_sym, sort_values_perm|].
    eapply nth_error_In; exact H0. }
  assert (Hrows : forall x, In x (skipn (i + 1) (sort_values d)) ->
                            List.length (pars x) = List.length (pars r0)).
  { intros x Hx. apply Hrect; [|exact Hin0].
    eapply Permutation_in; [apply Permutation_sym, sort_values_perm|].
    rewrite <- (firstn_skipn (i + 1) (sort_values d)).
    apply in_or_app. right. exact Hx. }
  eexists. split; [exact Hv|].
  rewrite map_value_uncertain_values by (apply running_length; exact Hrows).
  destruct (sort_values_head d r0 H0) as [pre [post [Hd [Hpre Hpost]]]].
  assert (Hmax : lnprob r0 == lnprob_max d).
  { apply Qle_antisym; [apply lnprob_max_ge; exact Hin0|].
    destruct (lnprob_max_attained d) as [x [Hx Hxe]].
    - intro He. rewrite He in Hin0. contradiction.
    - rewrite <- Hxe.
      apply (sorted_head_highest (sort_values d) r0 (sort_values_sorted d) H0).
      eapply Permutation_in; [apply sort_values_perm|exact Hx]. }
  remember (lnprob_max d) as M eqn:EM. clear EM.
  rewrite Hd in Hvals. rewrite filter_app in Hvals.
  assert (Hnone : filter (fun x => Qeq_bool (lnprob x) M) pre = []).
  { clear Hvals Hd. induction pre as [|x pre IH]; [reflexivity|].
    simpl. destruct (Qeq_bool (lnprob x) M) eqn:Hb.
    - apply Qeq_bool_iff in Hb. exfalso.
      assert (Hlt : lnprob x < lnprob r0) by (apply Hpre; left; reflexivity).
      rewrite Hb, <- Hmax in Hlt. exact (Qlt_irrefl _ Hlt).
    - apply IH. intros y Hy. apply Hpre. right. exact Hy. }
  rewrite Hnone in Hvals. cbn [app filter] in Hvals.
  assert (Hb : Qeq_bool (lnprob r0) M = true)
    by (apply Qeq_bool_iff; exact Hmax).
  rewrite Hb in Hvals. cbn [map] in Hvals.
  injection Hvals as Hv0 _. exact Hv0.
Qed.

End WithPrior.



Lemma values_map_is_most_probable_example :
  exists uvs, values chain_single_peak = Ok uvs /\ map value uvs = [1; 7].
Proof.
  apply (values_map_is_most_probable unit chain_single_peak [1; 7] 2).
  - intros r r' Hr Hr'. simpl in Hr, Hr'.
    repeat (destruct Hr as [<-|Hr]; [repeat (destruct Hr' as [<-|Hr']; [reflexivity|]); contradiction|]).
    contradiction.
  - split.
    + eexists. split; [reflexivity|]. vm_compute. discriminate.
    + intros [|[|j]] x Hj Hn; [| |lia]; injection Hn as <-; reflexivity.
  - reflexivity.
Defined.

(** C8 fails as stated: in [chain_tied] two walkers reach the largest
    log-probability at different positions; the summary reports one of
    them (the first, with ties kept in order), and [most_probable_values]
    answers with both, as a two-dimensional array. *)
Lemma values_map_is_not_most_probable_when_tied :
  values chain_tied = Ok [mkUncertainValue 1 5 (Some 0) 1] /\
  most_probable_values chain_tied = Ok (Ambiguous [[1]; [2]]) /\
  most_probable_values chain_tied <> Ok (Point [1]).
Proof.
  split; [reflexivity|]. split; [reflexivity|]. discriminate.
Qed.

End ResultsFacts.

(** ** The fraction schedule on float64 *)

Module Fractions64Facts.

Import Fractions64.

Lemma set_last64_length (y : list PrimFloat.float) (stop : PrimFloat.float) :
  List.length (set_last y stop) = List.length y.
Proof.
  induction y as [|x y IH]; [reflexivity|].
  destruct y as [|x' y]; [reflexivity|].
  change (set_last (x :: x' :: y) stop) with (x :: set_last (x' :: y) stop).
  cbn [List.length] in *. f_equal. exact IH.
Qed.

Lemma set_last64_nth_error (y : list PrimFloat.float) (stop : PrimFloat.float)
  (i : nat) :
  (i < List.length y)%nat ->
  nth_error (set_last y stop) i =
  if (S i =? List.length y)%nat then Some stop else nth_error y i.
Proof.
  revert i. induction y as [|x y IH]; intros i Hi; [simpl in Hi; lia|].
  destruct y as [|x' y].
  - destruct i as [|i]; [reflexivity|simpl in Hi; lia].
  - change (set_last (x :: x' :: y) stop) with (x :: set_last (x' :: y) stop).
    destruct i as [|i]; [reflexivity|].
    cbn [nth_error]. rewrite IH by (cbn [List.length] in *; lia).
    reflexivity.
Qed.

Lemma linspace64_length (start stop : PrimFloat.float) (num : nat) :
  List.length (linspace start stop num) = num.
Proof.
  unfold linspace. destruct (1 <? num)%nat.
  - rewrite set_last64_length.
    destruct (PrimFloat.eqb _ _); rewrite !length_map, length_seq; reflexivity.
  - rewrite !length_map, length_seq. reflexivity.
Qed.

(** With at least two points, the last one is [stop] itself and the
    others are computed from the step. *)
Lemma linspace64_nth_error (start stop : PrimFloat.float) (n i : nat) :
  (1 <= n)%nat -> (i <= n)%nat ->
  nth_error (linspace start stop (n + 1)) i =
  Some (if (i =? n)%nat then stop else point start stop n i).
Proof.
  intros Hn Hi. unfold linspace, point.
  assert (Hnum : (1 <? n + 1)%nat = true) by (apply Nat.ltb_lt; lia).
  rewrite Hnum. replace (n + 1 - 1)%nat with n by lia. cbv zeta.
  assert (Hlt : (i <? n + 1)%nat = true) by (apply Nat.ltb_lt; lia).
  destruct (PrimFloat.eqb _ _);
    (rewrite set_last64_nth_error by (rewrite !length_map, length_seq; lia);
     rewrite !length_map, length_seq;
     destruct (i =? n)%nat eqn:Hin;
     [ apply Nat.eqb_eq in Hin; subst i;
       replace (S n =? n + 1)%nat with true by (symmetry; apply Nat.eqb_eq; lia);
       reflexivity
     | apply Nat.eqb_neq in Hin;
       replace (S i =? n + 1)%nat with false by (symmetry; apply Nat.eqb_neq; lia);
       rewrite !nth_error_map, nth_error_seq, Hlt; reflexivity ]).
Qed.

Section WithNumPy.

Context {NP : NumPy}.

Lemma fractions64_length (min_pixels max_pixels : Z) (stages : nat) (n_pixels : Z) :
  List.length (fractions min_pixels max_pixels stages n_pixels) = S stages.
Proof.
  unfold fractions, logspace. rewrite !length_map, linspace64_length. lia.
Qed.

Lemma fractions64_nth_error (min_pixels max_pixels : Z) (stages : nat)
  (n_pixels : Z) (i : nat) :
  (1 <= stages)%nat -> (i <= stages)%nat ->
  nth_error (fractions min_pixels max_pixels stages n_pixels) i =
  Some (PrimFloat.div
          (np_power10
             (if (i =? stages)%nat then np_log10 (of_int max_pixels)
              else point (np_log10 (of_int min_pixels))
                     (np_log10 (of_int max_pixels)) stages i))
          (of_int n_pixels)).
Proof.
  intros Hs Hi. unfold fractions, logspace.
  rewrite !nth_error_map, linspace64_nth_error by assumption.
  reflexivity.
Qed.

Lemma final_fraction_nth_error (l : list PrimFloat.float) (n : nat)
  (x : PrimFloat.float) :
  List.length l = S n -> nth_error l n = Some x -> final_fraction l = Ok x.
Proof.
  intros Hlen Hn. unfold final_fraction.
  destruct (nth_error_split l n Hn) as [l1 [l2 [-> Hl1]]].
  rewrite length_app in Hlen. cbn [List.length] in Hlen.
  destruct l2 as [|y l2]; [|cbn [List.length] in Hlen; lia].
  rewrite rev_app_distr. reflexivity.
Qed.

End WithNumPy.

End Fractions64Facts.

(** ** The fraction schedule *)

Module FractionsFacts.

Import Fractions.

Local Open Scope R_scope.

Lemma set_last_length (y : list R) (stop : R) :
  List.length (set_last y stop) = List.length y.
Proof.
  induction y as [|x y IH]; [reflexivity|].
  destruct y as [|x' y]; [reflexivity|].
  change (set_last (x :: x' :: y) stop) with (x :: set_last (x' :: y) stop).
  cbn [List.length] in *. f_equal. exact IH.
Qed.

Lemma set_last_nth_error (y : list R) (stop : R) (i : nat) :
  (i < List.length y)%nat ->
  nth_error (set_last y stop) i =
  if (S i =? List.length y)%nat then Some stop else nth_error y i.
Proof.
  revert i. induction y as [|x y IH]; intros i Hi; [simpl in Hi; lia|].
  destruct y as [|x' y].
  - destruct i as [|i]; [reflexivity|simpl in Hi; lia].
  - change (set_last (x :: x' :: y) stop) with (x :: set_last (x' :: y) stop).
    destruct i as [|i]; [reflexivity|].
    cbn [nth_error]. rewrite IH by (cbn [List.length] in *; lia).
    reflexivity.
Qed.

Lemma linspace_length (start stop : R) (num : nat) :
  List.length (linspace start stop num) = num.
Proof.
  unfold linspace. destruct (1 <? num)%nat.
  - rewrite set_last_length, !length_map, length_seq. reflexivity.
  - rewrite !length_map, length_seq. reflexivity.
Qed.

(** With at least two points, point [i] interpolates linearly between
    the two ends. *)
Lemma linspace_nth_error (start stop : R) (n i : nat) :
  (1 <= n)%nat -> (i <= n)%nat ->
  nth_error (linspace start stop (n + 1)) i =
  Some (lerp start stop (INR i / INR n)).
Proof.
  intros Hn Hi. unfold linspace.
  assert (Hnum : (1 <? n + 1)%nat = true) by (apply Nat.ltb_lt; lia).
  rewrite Hnum. replace (n + 1 - 1)%nat with n by lia.
  assert (HnR : INR n <> 0) by (apply not_0_INR; lia).
  rewrite set_last_nth_error by (rewrite !length_map, length_seq; lia).
  rewrite !length_map, length_seq.
  destruct (S i =? n + 1)%nat eqn:Hlast.
  - apply Nat.eqb_eq in Hlast. assert (i = n) by lia. subst i.
    f_equal. unfold lerp. field. exact HnR.
  - rewrite !nth_error_map, nth_error_seq.
    assert (Hlt : (i <? n + 1)%nat = true) by (apply Nat.ltb_lt; lia).
    rewrite Hlt. cbn [option_map Nat.add]. f_equal. unfold lerp. field. exact HnR.
Qed.

Lemma ln_10_pos : 0 < ln 10.
Proof. rewrite <- ln_1. apply ln_increasing; lra. Qed.

Lemma log10_increasing (x y : R) : 0 < x -> x < y -> log10 x < log10 y.
Proof.
  intros Hx Hxy. unfold log10.
  apply Rmult_lt_compat_r; [apply Rinv_0_lt_compat, ln_10_pos|].
  apply ln_increasing; assumption.
Qed.

Lemma power10_log10 (x : R) : 0 < x -> power10 (log10 x) = x.
Proof.
  intro Hx. unfold power10, log10, Rpower.
  replace (ln x / ln 10 * ln 10) with (ln x)
    by (field; apply Rgt_not_eq, ln_10_pos).
  apply exp_ln. exact Hx.
Qed.

Lemma power10_pos (y : R) : 0 < power10 y.
Proof. unfold power10, Rpower. apply exp_pos. Qed.

Lemma power10_increasing (y z : R) : y < z -> power10 y < power10 z.
Proof. intro H. unfold power10. apply Rpower_lt; [lra|exact H]. Qed.

Lemma fractions_length (min_pixels max_pixels : Z) (stages : nat) (n_pixels : Z) :
  List.length (fractions min_pixels max_pixels stages n_pixels) = S stages.
Proof.
  unfold fractions, logspace. rewrite !length_map, linspace_length. lia.
Qed.

Lemma fractions_nth_error (min_pixels max_pixels : Z) (stages : nat)
  (n_pixels : Z) (i : nat) :
  (1 <= stages)%nat -> (i <= stages)%nat ->
  nth_error (fractions min_pixels max_pixels stages n_pixels) i =
  Some (spec_fraction min_pixels max_pixels stages n_pixels i).
Proof.
  intros Hs Hi. unfold fractions, logspace.
  rewrite !nth_error_map, linspace_nth_error by assumption.
  reflexivity.
Qed.

Lemma spec_fraction_increasing (min_pixels max_pixels : Z) (stages : nat)
  (n_pixels : Z) (i j : nat) :
  (1 <= min_pixels)%Z -> (min_pixels < max_pixels)%Z ->
  (max_pixels <= n_pixels)%Z ->
  (i < j)%nat -> (j <= stages)%nat ->
  spec_fraction min_pixels max_pixels stages n_pixels i <
  spec_fraction min_pixels max_pixels stages n_pixels j.
Proof.
  intros Hmin Hlt Hmax Hij Hj. unfold spec_fraction.
  assert (HN : 0 < IZR n_pixels) by (apply IZR_lt; lia).
  assert (Hlog : log10 (IZR min_pixels) < log10 (IZR max_pixels)).
  { apply log10_increasing; [apply IZR_lt; lia|apply IZR_lt; exact Hlt]. }
  assert (HnR : 0 < INR stages) by (apply lt_0_INR; lia).
  assert (Ht : INR i / INR stages < INR j / INR stages).
  { apply Rmult_lt_compat_r; [apply Rinv_0_lt_compat; exact HnR|].
    apply lt_INR. exact Hij. }
  apply Rmult_lt_compat_r; [apply Rinv_0_lt_compat; exact HN|].
  apply (power10_increasing _ _). unfold lerp. nra.
Qed.




(** Without preliminary stages the schedule is the one fraction
    [min_pixels / N], written as the code computes it. *)
Lemma fractions_no_stages (min_pixels max_pixels n_pixels : Z) :
  fractions min_pixels max_pixels 0 n_pixels =
  [power10 (log10 (IZR min_pixels)) / IZR n_pixels].
Proof.
  unfold fractions, logspace, linspace. cbn [Nat.add Nat.ltb Nat.leb seq map].
  do 3 f_equal. cbn [INR]. ring.
Qed.

End FractionsFacts.

(** ** The scheduler *)

Module TemperingFacts.

Import Fractions FractionsFacts Tempering.

Notation "x <~ m ;; k" := (bindM m (fun x => k))
  (at level 61, m at next level, right associativity).

Section Scheduler.

Context {E : Externals}.

Lemma Emcee_init_stores (model : Model Prior) (data : Frames Image)
  (n : nat) (random_subset : option R) (t : option nat)
  (preprocess : option (Image -> Image)) (w w' : World) (emcee : Emcee) :
  Emcee_init model data n random_subset t preprocess w = Ok (emcee, w') ->
  e_model emcee = model /\ nwalkers emcee = n /\ threads emcee = t.
Proof.
  unfold Emcee_init. destruct data as [d|ds]; unfold bindM, ret.
  - unfold draw. destruct (make_subset_data _ _ w) as [d' w1].
    intro H. injection H as <- _. auto.
  - destruct (mapM _ ds w) as [[ds' w1]|e]; [|discriminate].
    intro H. injection H as <- _. auto.
Qed.

(** C9.  With [stages=0] the schedule has no preliminary stage: the
    call is one [Emcee(...)] on the fraction [min_pixels / N] followed by
    one [sample(final_len)] with no [p0], and that run draws its walker
    positions from the model's own priors and runs the sampler once. *)
Theorem subset_tempering_no_stages (model : Model Prior) (data : Frames Image)
  (final_len n : nat) (min_pixels max_pixels : Z) (t : threads_arg)
  (stage_len : nat) (preprocess : option (Image -> Image)) (w : World) :
  subset_tempering model data final_len n min_pixels max_pixels t 0
    stage_len preprocess w =
  (n_pixels <~ lift (n_pixels_of (hook preprocess) data) ;;
   emcee <~ Emcee_init model data n
              (Some (power10 (log10 (IZR min_pixels)) / IZR n_pixels)%R)
              (match t with ThreadsAll => Some cpu_count | ThreadsGiven t' => t' end)
              None ;;
   sample emcee final_len None) w /\
  forall random_subset t' emcee w0 w1,
    Emcee_init model data n random_subset t' None w0 = Ok (emcee, w1) ->
    sample emcee final_len None w1 =
    (p0 <~ draw_positions n (parameters model) ;;
     sampler <~ run_mcmc model (e_data emcee) n t' p0 final_len ;;
     ret (mkEmceeResult sampler model)) w1.
Proof.
  split.
  - unfold subset_tempering. cbv zeta. unfold bindM at 1 3.
    unfold lift at 1 3.
    destruct (n_pixels_of (hook preprocess) data) as [n_pixels|e]; [|reflexivity].
    rewrite fractions_no_stages.
    reflexivity.
  - intros random_subset t' emcee w0 w1 Hinit.
    destruct (Emcee_init_stores _ _ _ _ _ _ _ _ _ Hinit) as [Hm [Hn Ht]].
    unfold sample, make_guess. rewrite Hm, Hn, Ht. reflexivity.
Qed.

End Scheduler.

Import Collapsed.

(** C4 does not hold of the code.  In the environment [collapsed_env] the
    single preliminary stage ends on a chain whose summary has zero width;
    [updated_priors] turns it into a prior of standard deviation zero and
    nothing is raised: the schedule goes on, and the final stage is run
    from the one point that prior can draw. *)
Theorem zero_width_stage_is_not_refused :
  exists stage final w,
    sample (E := collapsed_env)
      (mkEmcee (E := collapsed_env) model0 1 (SingleFrame 1000%nat) 1 None)
      2 None 0%nat = Ok (stage, 1%nat) /\
    values stage = Ok [mkUncertainValue 3 0 (Some 0) 1] /\
    (exists p, updated_priors (E := collapsed_env) stage None = Ok [p] /\
               sd p == 0) /\
    subset_tempering (E := collapsed_env) model0 (SingleFrame 1000%nat)
      2 1 10 1000 (ThreadsGiven None) 1 2 None 0%nat = Ok (final, w) /\
    chain (sampler final) = [[[3]; [4]]].
Proof.
  eexists. eexists. eexists.
  split; [lazy; reflexivity|].
  split; [reflexivity|].
  split.
  - eexists. split; [lazy; reflexivity|]. reflexivity.
  - split; [lazy; reflexivity|]. reflexivity.
Qed.

End TemperingFacts.

(** ** More about the summarizer *)

Module SummaryFacts.

Import Tables.

(** The first position at which a test succeeds. *)
Lemma first_position {A : Type} (P : A -> bool) (l : list A) :
  (exists a, In a l /\ P a = true) ->
  exists i a,
    nth_error l i = Some a /\ P a = true /\
    forall j b, (j < i)%nat -> nth_error l j = Some b -> P b = false.
Proof.
  induction l as [|x l IH]; intros [a [Hin Ha]]; [contradiction|].
  destruct (P x) eqn:Hx.
  - exists 0%nat, x. split; [reflexivity|]. split; [exact Hx|].
    intros j b Hj. lia.
  - destruct Hin as [->|Hin]; [congruence|].
    destruct IH as [i [a' [Hi [Ha' Hbefore]]]]; [exists a; auto|].
    exists (S i), a'. split; [exact Hi|]. split; [exact Ha'|].
    intros [|j] b Hj Hb.
    + simpl in Hb. injection Hb as <-. exact Hx.
    + apply (Hbefore j); [lia|exact Hb].
Qed.

Lemma threshold_cases (t : Q) (d : DataFrame) :
  (exists r, In r d /\ lnprob r <= t) \/ (forall r, In r d -> t < lnprob r).
Proof.
  induction d as [|a d [[r [Hin Hr]]|Hall]].
  - right. intros r [].
  - left. exists r. split; [right; exact Hin|exact Hr].
  - destruct (Qlt_le_dec t (lnprob a)) as [Hlt|Hle].
    + right. intros r [<-|Hin]; [exact Hlt|apply Hall; exact Hin].
    + left. exists a. split; [left; reflexivity|exact Hle].
Qed.

(** A row at or below the threshold gives the sorted table a first
    such row. *)
Lemma first_at_or_below_exists (d : DataFrame) :
  (exists r, In r d /\ lnprob r <= lnprob_max d - (1#2)) ->
  exists i, first_at_or_below (sort_values d) i.
Proof.
  intros [r [Hin Hr]].
  pose proof (sort_values_perm d) as Hp.
  pose proof (lnprob_max_perm _ _ Hp) as Hmax.
  destruct (first_position
              (fun x => Qle_bool (lnprob x) (lnprob_max (sort_values d) - (1#2)))
              (sort_values d)) as [i [a [Hi [Ha Hbefore]]]].
  { exists r. split; [eapply Permutation_in; eassumption|].
    apply Qle_bool_iff. rewrite <- Hmax. exact Hr. }
  exists i. split.
  - exists a. split; [exact Hi|]. apply Qle_bool_iff. exact Ha.
  - intros j b Hj Hb. apply Qle_bool_false. apply (Hbefore j); assumption.
Qed.

Lemma values_raises_all_above (d : DataFrame) :
  (forall r, In r d -> lnprob_max d - (1#2) < lnprob r) ->
  _values d = Raise (IndexError (shape0 d)).
Proof.
  intro Hall. destruct d as [|a d]; [reflexivity|].
  apply values_raises; [discriminate|exact Hall].
Qed.

Lemma values_returns_with_drop (d : DataFrame) :
  (exists r, In r d /\ lnprob r <= lnprob_max d - (1#2)) ->
  exists uvs, _values d = Ok uvs.
Proof.
  intro Hex. destruct (first_at_or_below_exists d Hex) as [i Hi].
  destruct (values_returns d i Hi) as [r0 [ku [kl [_ [_ [_ Hv]]]]]].
  eexists. exact Hv.
Qed.

Lemma values_returned_has_drop (d : DataFrame) (uvs : list UncertainValue) :
  _values d = Ok uvs ->
  exists r, In r d /\ lnprob r <= lnprob_max d - (1#2).
Proof.
  intro Hv.
  destruct (threshold_cases (lnprob_max d - (1#2)) d) as [Hex|Hall];
    [exact Hex|].
  rewrite (values_raises_all_above d Hall) in Hv. discriminate.
Qed.


Lemma map2_nth_error (f : Q -> Q -> Q) (b s : Series) (p : nat) (v : Q) :
  nth_error (map2 f b s) p = Some v ->
  exists x y, nth_error b p = Some x /\ nth_error s p = Some y /\ v = f x y.
Proof.
  revert s p. induction b as [|x b IH]; intros [|y s] [|p] H; simpl in H;
    try discriminate.
  - injection H as <-. exists x, y. auto.
  - cbn [nth_error]. apply IH. exact H.
Qed.

(** A coordinate of the accumulated bound is related to the same
    coordinate of the starting bound by any preorder [f] moves along. *)
Lemma running_related (f : Q -> Q -> Q) (R : Q -> Q -> Prop) :
  (forall x, R x x) ->
  (forall x y z, R x y -> R y z -> R x z) ->
  (forall x y, R x (f x y)) ->
  forall rows k b p u,
    nth_error (running f b rows k) p = Some u ->
    exists m, nth_error b p = Some m /\ R m u.
Proof.
  intros Hrefl Htrans Hf.
  induction rows as [|r rows IH]; intros k b p u Hu.
  - destruct k; exists u; auto.
  - destruct k as [|k]; [exists u; auto|].
    rewrite running_S in Hu.
    destruct (IH k _ p u Hu) as [v [Hv Hvu]].
    destruct (map2_nth_error f b (pars r) p v Hv) as [x [y [Hx [_ ->]]]].
    exists x. split; [exact Hx|]. eapply Htrans; [apply Hf|exact Hvu].
Qed.

Lemma uncertain_values_signs (mp upper lower : Series) :
  (forall p u, nth_error upper p = Some u ->
               exists m, nth_error mp p = Some m /\ m <= u) ->
  (forall p l, nth_error lower p = Some l ->
               exists m, nth_error mp p = Some m /\ l <= m) ->
  Forall (fun v => 0 <= plus v /\
                   (exists m, minus v = Some m /\ 0 <= m) /\
                   n_sigma v = 1)
    (uncertain_values mp upper lower).
Proof.
  revert upper lower.
  induction mp as [|m mp IH]; intros [|u upper] [|l lower] Hu Hl;
    simpl; try constructor.
  - destruct (Hu 0%nat u eq_refl) as [m' [Hm' Hle]].
    destruct (Hl 0%nat l eq_refl) as [m'' [Hm'' Hle']].
    simpl in Hm', Hm''. injection Hm' as <-. injection Hm'' as <-.
    split; [apply Qle_minus_iff in Hle; exact Hle|].
    split; [|reflexivity].
    exists (m - l). split; [reflexivity|].
    apply Qle_minus_iff in Hle'. exact Hle'.
  - apply IH.
    + intros p u' Hp. apply (Hu (S p)). exact Hp.
    + intros p l' Hp. apply (Hl (S p)). exact Hp.
Qed.

(** X2.  On a table whose rows have equally many parameters, a summary
    that is returned has one entry per parameter; its values are the
    parameters of a row of the table that no row exceeds in
    log-probability; every [plus] and every [minus] is a number that is
    not negative, and [n_sigma] is 1. *)
Theorem values_summary_shape (d : DataFrame) (uvs : list UncertainValue) :
  rectangular d ->
  _values d = Ok uvs ->
  exists r0,
    In r0 d /\
    (forall r, In r d -> lnprob r <= lnprob r0) /\
    map value uvs = pars r0 /\
    Forall (fun v => 0 <= plus v /\
                     (exists m, minus v = Some m /\ 0 <= m) /\
                     n_sigma v = 1) uvs.
Proof.
  intros Hrect Hv.
  destruct (first_at_or_below_exists d (values_returned_has_drop d uvs Hv))
    as [i Hi].
  destruct (values_returns d i Hi) as [r0 [ku [kl [H0 [_ [_ Hv']]]]]].
  rewrite Hv in Hv'. injection Hv' as ->.
  pose proof (sort_values_perm d) as Hp.
  assert (Hin0 : In r0 d).
  { eapply Permutation_in; [apply Permutation_sym; exact Hp|].
    eapply nth_error_In; exact H0. }
  exists r0. split; [exact Hin0|]. split.
  { intros r Hin.
    apply (sorted_head_highest (sort_values d) r0 (sort_values_sorted d) H0).
    eapply Permutation_in; eassumption. }
  assert (Hrows : forall x, In x (skipn (i + 1) (sort_values d)) ->
                            List.length (pars x) = List.length (pars r0)).
  { intros x Hx. apply Hrect; [|exact Hin0].
    eapply Permutation_in; [apply Permutation_sym; exact Hp|].
    rewrite <- (firstn_skipn (i + 1) (sort_values d)).
    apply in_or_app. right. exact Hx. }
  split.
  - apply ResultsFacts.map_value_uncertain_values;
      apply ResultsFacts.running_length; exact Hrows.
  - apply uncertain_values_signs.
    + intros p u Hu.
      apply (running_related Qmax Qle Qle_refl Qle_trans Q.le_max_l _ _ _ _ _ Hu).
    + intros p l Hl.
      apply (running_related Qmin (fun a b => b <= a)
               Qle_refl (fun x y z H1 H2 => Qle_trans _ _ _ H2 H1)
               Q.le_min_l _ _ _ _ _ Hl).
Qed.

Lemma values_summary_shape_two_parameters :
  exists r0,
    In r0 table_two_parameters /\
    (forall r, In r table_two_parameters -> lnprob r <= lnprob r0) /\
    map value [mkUncertainValue 0 2 (Some 0) 1; mkUncertainValue 0 1 (Some 0) 1]
      = pars r0 /\
    Forall (fun v => 0 <= plus v /\
                     (exists m, minus v = Some m /\ 0 <= m) /\
                     n_sigma v = 1)
      [mkUncertainValue 0 2 (Some 0) 1; mkUncertainValue 0 1 (Some 0) 1].
Proof.
  apply (values_summary_shape table_two_parameters).
  - intros r r' Hr Hr'. simpl in Hr, Hr'.
    repeat (destruct Hr as [<-|Hr];
            [repeat (destruct Hr' as [<-|Hr']; [reflexivity|]); contradiction|]).
    contradiction.
  - reflexivity.
Defined.

(** Two descending tables with the same rows and no shared
    log-probability are the same table. *)
Lemma sorted_perm_unique (s s' : DataFrame) :
  StronglySorted desc s -> StronglySorted desc s' ->
  Permutation s s' -> distinct_lnprob s -> s = s'.
Proof.
  revert s'. induction s as [|a s IH]; intros s' Hs Hs' Hp [Hnd Hinj].
  - apply Permutation_nil in Hp. congruence.
  - destruct s' as [|a' s'];
      [apply Permutation_sym, Permutation_nil in Hp; discriminate|].
    inversion Hs as [|? ? Hs1 Hall]; subst.
    inversion Hs' as [|? ? Hs1' Hall']; subst.
    rewrite Forall_forall in Hall, Hall'.
    assert (Ha : In a (a' :: s'))
      by (eapply Permutation_in; [exact Hp|left; reflexivity]).
    assert (Ha' : In a' (a :: s))
      by (eapply Permutation_in; [apply Permutation_sym; exact Hp|left; reflexivity]).
    assert (Heq : a = a').
    { destruct Ha as [Ha|Ha]; [congruence|].
      destruct Ha' as [Ha'|Ha']; [congruence|].
      apply Hinj; [left; reflexivity|right; exact Ha'|].
      apply Qle_antisym; [apply Hall'; exact Ha|apply Hall; exact Ha']. }
    subst a'. f_equal. apply IH.
    + exact Hs1.
    + exact Hs1'.
    + eapply Permutation_cons_inv. exact Hp.
    + split; [inversion Hnd; assumption|].
      intros r r' Hr Hr'. apply Hinj; right; assumption.
Qed.

(** X3.  When no two rows share a log-probability the summary does not
    depend on the order in which the rows come. *)
Theorem values_order_independent (d d' : DataFrame) :
  Permutation d d' -> distinct_lnprob d -> _values d = _values d'.
Proof.
  intros Hp [Hnd Hinj].
  assert (Hsort : sort_values d = sort_values d').
  { apply sorted_perm_unique; try apply sort_values_sorted.
    - eapply Permutation_trans; [apply Permutation_sym, sort_values_perm|].
      eapply Permutation_trans; [exact Hp|apply sort_values_perm].
    - split.
      + eapply Permutation_NoDup; [apply sort_values_perm|exact Hnd].
      + intros r r' Hr Hr'. apply Hinj;
          (eapply Permutation_in; [apply Permutation_sym, sort_values_perm|]);
          assumption. }
  unfold _values. rewrite Hsort. reflexivity.
Qed.

Lemma values_order_independent_dominated :
  _values table_dominated = _values table_dominated_shuffled.
Proof.
  apply (values_order_independent table_dominated table_dominated_shuffled).
  - unfold table_dominated, table_dominated_shuffled.
    eapply perm_trans; [apply perm_skip, perm_swap|apply perm_swap].
  - split.
    + repeat constructor; simpl; intuition discriminate.
    + intros r r' Hr Hr' H. simpl in Hr, Hr'.
      repeat (destruct Hr as [<-|Hr];
              [repeat (destruct Hr' as [<-|Hr'];
                       [first [reflexivity|vm_compute in H; discriminate]|]);
               contradiction|]).
      contradiction.
Defined.

End SummaryFacts.

(** ** More about thinning *)

Module ThinningFacts.

Import Tables SliceFacts ResultsFacts.

Lemma every_aux_length {A : Type} (k : nat) (l : list A) :
  (1 <= k)%nat ->
  forall skip,
    List.length (every_aux k skip l) = ((List.length l + k - 1 - skip) / k)%nat.
Proof.
  intro Hk. induction l as [|x l IH]; intro skip.
  - simpl. symmetry. apply Nat.div_small. lia.
  - destruct skip as [|skip]; cbn [every_aux List.length].
    + rewrite IH.
      replace (List.length l + k - 1 - (k - 1))%nat with (List.length l) by lia.
      replace (S (List.length l) + k - 1 - 0)%nat with (List.length l + 1 * k)%nat
        by lia.
      rewrite Nat.div_add by lia. lia.
    + rewrite IH. f_equal. lia.
Qed.

(** How many positions a slice keeps. *)
Lemma slice_nz_length {A : Type} (start : nat) (step : Z) (l : list A) :
  (1 <= step)%Z ->
  List.length (slice_nz (Z.of_nat start) step l) =
  ((List.length l + Z.to_nat step - 1 - start) / Z.to_nat step)%nat.
Proof.
  intro Hstep. unfold slice_nz, every.
  assert (Hpos : (0 <? step)%Z = true) by (apply Z.ltb_lt; lia).
  assert (Hneg : (Z.of_nat start <? 0)%Z = false) by (apply Z.ltb_ge; lia).
  rewrite Hpos, Hneg. rewrite every_aux_length by lia.
  rewrite length_skipn.
  destruct (Nat.le_gt_cases start (List.length l)) as [Hle|Hgt].
  - rewrite Z.min_l by lia. rewrite Nat2Z.id. f_equal. lia.
  - rewrite Z.min_r by lia. rewrite Nat2Z.id.
    rewrite !Nat.div_small by lia. reflexivity.
Qed.

Lemma py_max_raises (l : list Q) (e : exn) :
  py_max l = Raise e -> l = [] /\ e = ValueError.
Proof.
  induction l as [|x l IH]; intro H.
  - simpl in H. injection H as <-. auto.
  - destruct l as [|y l]; [discriminate|].
    rewrite py_max_cons in H.
    destruct (py_max (y :: l)) as [m|e'] eqn:Hm; [discriminate|].
    cbn [bind] in H. destruct (IH H) as [Hnil _]. discriminate.
Qed.

Lemma Qfloor_unit (q : Q) : 0 <= q -> q < 1 -> Qfloor q = 0%Z.
Proof.
  intros H0 H1.
  pose proof (Qfloor_le q) as Hlo. pose proof (Qlt_floor q) as Hhi.
  assert (Hlt : (Qfloor q < 1)%Z).
  { rewrite Zlt_Qlt. eapply Qle_lt_trans; [exact Hlo|exact H1]. }
  assert (Hgt : (0 < Qfloor q + 1)%Z).
  { rewrite Zlt_Qlt. eapply Qle_lt_trans; [exact H0|exact Hhi]. }
  lia.
Qed.

(** Python's [int] sends everything strictly between -1 and 1 to 0. *)
Lemma int_small (q : Q) : -(1) < q -> q < 1 -> int q = 0%Z.
Proof.
  intros Hlo Hhi. unfold int.
  destruct (Qle_bool 0 q) eqn:Hb.
  - apply Qle_bool_iff in Hb. apply Qfloor_unit; assumption.
  - apply Qle_bool_false in Hb. unfold Qceiling.
    rewrite Qfloor_unit; [reflexivity| |].
    + apply Qlt_le_weak. apply Qopp_lt_compat in Hb. exact Hb.
    + apply Qopp_lt_compat in Hlo. rewrite Qopp_involutive in Hlo. exact Hlo.
Qed.

Section WithPrior.

Variable Prior : Type.

(** X4.  With [thin=None] and no burn-in the frame is the whole chain,
    every step of every walker, one walker after the other, and
    [values()] is the summary of exactly that table: it does not thin,
    whatever the autocorrelation estimates are. *)
Theorem values_summarises_whole_chain (r : EmceeResult Prior) :
  data_frame r 0 ThinNone = Ok (concat (walkers (sampler r))) /\
  data_frame r 0 (ThinInt 1) = Ok (concat (walkers (sampler r))) /\
  values r = _values (concat (walkers (sampler r))).
Proof.
  assert (H1 : forall thin, thin_stride r thin = Ok 1%Z ->
                data_frame r 0 thin = Ok (concat (walkers (sampler r)))).
  { intros thin Hs.
    rewrite (data_frame_sliced Prior r 0 thin 1 Hs); [|discriminate].
    do 2 f_equal. rewrite <- (map_id (walkers (sampler r))) at 2.
    apply map_ext. intro w. apply slice_nz_whole. }
  split; [apply H1; reflexivity|].
  split; [apply H1; reflexivity|].
  unfold values. rewrite (H1 ThinNone eq_refl). reflexivity.
Qed.

(** X5.  With [thin='acor'] a frame comes back exactly when there is an
    autocorrelation estimate and the integer part of the largest one is
    not zero; otherwise the call raises [ValueError], in particular
    whenever the largest estimate lies strictly between -1 and 1. *)
Theorem data_frame_acor_returns_iff (r : EmceeResult Prior) (burn_in : Z) :
  ((exists df, data_frame r burn_in ThinAcor = Ok df) <->
   (exists m, py_max (acor (sampler r)) = Ok m /\ int m <> 0%Z)) /\
  (forall e, data_frame r burn_in ThinAcor = Raise e -> e = ValueError) /\
  (forall m, py_max (acor (sampler r)) = Ok m -> -(1) < m -> m < 1 ->
             data_frame r burn_in ThinAcor = Raise ValueError).
Proof.
  assert (Hzero : forall m, py_max (acor (sampler r)) = Ok m -> int m = 0%Z ->
                            data_frame r burn_in ThinAcor = Raise ValueError).
  { intros m Hm Hi. unfold data_frame, thin_stride. rewrite Hm. cbn [bind].
    rewrite Hi. reflexivity. }
  assert (Hok : forall m, py_max (acor (sampler r)) = Ok m -> int m <> 0%Z ->
                          exists df, data_frame r burn_in ThinAcor = Ok df).
  { intros m Hm Hi. eexists.
    apply (data_frame_sliced Prior r burn_in ThinAcor (int m)); [|exact Hi].
    unfold thin_stride. rewrite Hm. reflexivity. }
  split; [split|split].
  - intros [df Hdf].
    destruct (py_max (acor (sampler r))) as [m|e] eqn:Hm.
    + exists m. split; [reflexivity|]. intro Hi.
      rewrite (Hzero m eq_refl Hi) in Hdf. discriminate.
    + unfold data_frame, thin_stride in Hdf. rewrite Hm in Hdf. discriminate.
  - intros [m [Hm Hi]]. exact (Hok m Hm Hi).
  - intros e He.
    destruct (py_max (acor (sampler r))) as [m|e'] eqn:Hm.
    + destruct (Z.eq_dec (int m) 0) as [Hi|Hi].
      * rewrite (Hzero m eq_refl Hi) in He. congruence.
      * destruct (Hok m eq_refl Hi) as [df Hdf]. congruence.
    + destruct (py_max_raises _ _ Hm) as [_ ->].
      unfold data_frame, thin_stride in He. rewrite Hm in He.
      cbn [bind] in He. congruence.
  - intros m Hm Hlo Hhi. apply (Hzero m Hm). apply int_small; assumption.
Qed.

(** X6.  For a burn-in count and a stride of at least one, the frame has,
    for each walker, the number of its steps from the burn-in on divided
    by the stride and rounded up, and nothing is raised even when that
    leaves no row. *)
Theorem data_frame_row_count (r : EmceeResult Prior) (burn_in : nat)
  (thin : thin_arg) (stride : Z) :
  thin_stride r thin = Ok stride ->
  (1 <= stride)%Z ->
  exists df,
    data_frame r (Z.of_nat burn_in) thin = Ok df /\
    List.length df =
    list_sum
      (map (fun w => ((List.length w + Z.to_nat stride - 1 - burn_in)
                        / Z.to_nat stride)%nat)
         (walkers (sampler r))).
Proof.
  intros Hs Hstride. eexists. split.
  - apply (data_frame_sliced Prior r _ thin stride Hs). lia.
  - rewrite length_concat, map_map. f_equal.
    apply map_ext. intro w. apply slice_nz_length. exact Hstride.
Qed.

(** X7.  A burn-in that covers every walker's steps gives the empty
    frame, not an error. *)
Theorem data_frame_burn_in_past_end (r : EmceeResult Prior) (burn_in : nat)
  (thin : thin_arg) (stride : Z) :
  thin_stride r thin = Ok stride ->
  (1 <= stride)%Z ->
  (forall w, In w (walkers (sampler r)) -> (List.length w <= burn_in)%nat) ->
  data_frame r (Z.of_nat burn_in) thin = Ok [].
Proof.
  intros Hs Hstride Hshort.
  rewrite (data_frame_sliced Prior r _ thin stride Hs) by lia.
  f_equal. induction (walkers (sampler r)) as [|w ws IH]; [reflexivity|].
  cbn [map concat].
  assert (Hw : slice_nz (Z.of_nat burn_in) stride w = []).
  { apply length_zero_iff_nil. rewrite slice_nz_length by exact Hstride.
    apply Nat.div_small.
    assert (List.length w <= burn_in)%nat by (apply Hshort; left; reflexivity).
    lia. }
  rewrite Hw. cbn [app]. apply IH.
  intros w' Hin. apply Hshort. right. exact Hin.
Qed.

(** X8.  A chain without any sample: [values()] raises the [IndexError]
    of reading row 0, and [most_probable_values()] the [ValueError] of a
    maximum over nothing. *)
Theorem empty_chain_raises (r : EmceeResult Prior) :
  concat (walkers (sampler r)) = [] ->
  values r = Raise (IndexError 0) /\
  most_probable_values r = Raise ValueError.
Proof.
  intro Hempty. split.
  - unfold values. rewrite (data_frame_unthinned Prior r). cbn [bind].
    rewrite Hempty. reflexivity.
  - unfold most_probable_values, lnprobability.
    rewrite <- concat_map, Hempty. reflexivity.
Qed.

Lemma any_neq_same (a : Series) : any_neq a a = false.
Proof.
  induction a as [|x a IH]; [reflexivity|].
  simpl. rewrite IH.
  assert (H : Qeq_bool x x = true) by (apply Qeq_bool_iff; reflexivity).
  rewrite H. reflexivity.
Qed.

(** X9.  Every position [most_probable_values] answers with is a
    position of the chain whose log-probability no sample exceeds; when
    it answers with several, they are at least two and they are all the
    positions of that kind. *)
Theorem most_probable_values_attain_max (r : EmceeResult Prior) (res : mpv) :
  most_probable_values r = Ok res ->
  (forall v, In v (positions_of res) ->
     exists row,
       In row (concat (walkers (sampler r))) /\ pars row = v /\
       forall row', In row' (concat (walkers (sampler r))) ->
                    lnprob row' <= lnprob row) /\
  (forall vs, res = Ambiguous vs ->
     (2 <= List.length vs)%nat /\
     forall row,
       In row (concat (walkers (sampler r))) ->
       (forall row', In row' (concat (walkers (sampler r))) ->
                     lnprob row' <= lnprob row) ->
       In (pars row) vs).
Proof.
  unfold most_probable_values, chain, lnprobability.
  rewrite <- !concat_map.
  remember (concat (walkers (sampler r))) as d eqn:Ed. clear Ed.
  destruct d as [|a d'] eqn:Hd; [discriminate|].
  rewrite <- Hd. rewrite py_max_lnprob by (rewrite Hd; discriminate).
  cbn [bind]. rewrite filter_combine_rows.
  assert (Hd' : d <> []) by (rewrite Hd; discriminate).
  clear Hd a d'.
  set (best := filter (fun x => Qeq_bool (lnprob x) (lnprob_max d)) d).
  assert (Hsound : forall v, In v (map pars best) ->
            exists row, In row d /\ pars row = v /\
                        forall row', In row' d -> lnprob row' <= lnprob row).
  { intros v Hv. apply in_map_iff in Hv. destruct Hv as [row [Hrow Hin]].
    apply filter_In in Hin. destruct Hin as [Hin Hb].
    apply Qeq_bool_iff in Hb.
    exists row. split; [exact Hin|]. split; [exact Hrow|].
    intros row' Hin'. rewrite Hb. apply lnprob_max_ge. exact Hin'. }
  assert (Hcomplete : forall row, In row d ->
            (forall row', In row' d -> lnprob row' <= lnprob row) ->
            In (pars row) (map pars best)).
  { intros row Hin Hmax. apply in_map. apply filter_In. split; [exact Hin|].
    apply Qeq_bool_iff. apply Qle_antisym; [apply lnprob_max_ge; exact Hin|].
    destruct (lnprob_max_attained d Hd') as [x [Hx Hxe]].
    rewrite <- Hxe. apply Hmax. exact Hx. }
  destruct (map pars best) as [|v0 vals] eqn:Hvals; [discriminate|].
  cbn [reduce_axis0 bind].
  destruct (any_neq _ _) eqn:Hneq; intro H; injection H as <-.
  - split; [exact Hsound|].
    intros vs Hvs. injection Hvs as <-. split; [|exact Hcomplete].
    destruct vals as [|v1 vals]; [|simpl; lia].
    simpl in Hneq. rewrite any_neq_same in Hneq. discriminate.
  - split; [|intros vs Hvs; discriminate].
    intros v [<-|[]]. apply Hsound. left. reflexivity.
Qed.

End WithPrior.

Lemma data_frame_row_count_thinned :
  exists df,
    data_frame chain_thinned (Z.of_nat 1) (ThinInt 2) = Ok df /\
    List.length df =
    list_sum
      (map (fun w => ((List.length w + Z.to_nat 2 - 1 - 1) / Z.to_nat 2)%nat)
         (walkers (sampler chain_thinned))).
Proof.
  apply (data_frame_row_count unit chain_thinned 1 (ThinInt 2) 2).
  - reflexivity.
  - lia.
Defined.

Lemma data_frame_burn_in_past_end_thinned :
  data_frame chain_thinned (Z.of_nat 5) ThinAcor = Ok [].
Proof.
  apply (data_frame_burn_in_past_end unit chain_thinned 5 ThinAcor 2).
  - reflexivity.
  - lia.
  - intros w [<-|[<-|[]]]; simpl; lia.
Defined.

Lemma empty_chain_raises_no_steps :
  values chain_empty = Raise (IndexError 0) /\
  most_probable_values chain_empty = Raise ValueError.
Proof.
  apply (empty_chain_raises unit chain_empty). reflexivity.
Defined.

Lemma most_probable_values_attain_max_tied :
  (forall v, In v (positions_of (Ambiguous [[1]; [2]])) ->
     exists row,
       In row (concat (walkers (sampler chain_tied))) /\ pars row = v /\
       forall row', In row' (concat (walkers (sampler chain_tied))) ->
                    lnprob row' <= lnprob row) /\
  (forall vs, Ambiguous [[1]; [2]] = Ambiguous vs ->
     (2 <= List.length vs)%nat /\
     forall row,
       In row (concat (walkers (sampler chain_tied))) ->
       (forall row', In row' (concat (walkers (sampler chain_tied))) ->
                     lnprob row' <= lnprob row) ->
       In (pars row) vs).
Proof.
  apply (most_probable_values_attain_max unit chain_tied (Ambiguous [[1]; [2]])).
  reflexivity.
Defined.

End ThinningFacts.

(** ** More about saving and loading *)

Module PersistMoreFacts.

Import Persist PersistEmcee PersistFacts Tables.

Section WithYaml.

Variable Prior : Type.
Variable Yaml : Type.
Variable yaml_dump : Model Prior -> Yaml.
Variable yaml_load : Yaml -> Model Prior.

Lemma _save_keeps_groups (self : SamplingResult Prior) (df : DataFrame)
  (filename key : String.string) (fs : FileSystem Yaml) :
  key <> groupname ->
  get_group key (contents (_save yaml_dump self df filename fs) filename) =
  get_group key (contents fs filename).
Proof.
  intro Hne. unfold contents at 1. rewrite _save_writes.
  cbn [get_group].
  assert (Hk : String.eqb groupname key = false).
  { apply String.eqb_neq. congruence. }
  rewrite Hk. apply get_remove_group. exact Hne.
Qed.

(** X10.  [save] writes into the file next to what it holds under other
    keys, and [load_sampling] reads without a key: it returns the saved
    table and, when the model survives [yaml.dump] and [yaml.load], the
    saved model exactly when the file held nothing under another key (a
    new file, or one that held only ['samples']); otherwise it raises
    [ValueError].  No other file is touched. *)
Theorem load_sampling_round_trip (r : SamplingResult Prior)
  (filename : String.string) (fs : FileSystem Yaml) :
  yaml_load (yaml_dump (sr_model r)) = sr_model r ->
  (remove_group groupname (contents fs filename) = [] ->
   load_sampling yaml_load filename (save yaml_dump r filename fs) = Ok r) /\
  (remove_group groupname (contents fs filename) <> [] ->
   load_sampling yaml_load filename (save yaml_dump r filename fs) =
   Raise ValueError) /\
  (forall key, key <> groupname ->
     get_group key (contents (save yaml_dump r filename fs) filename) =
     get_group key (contents fs filename)) /\
  (forall other, other <> filename ->
     save yaml_dump r filename fs other = fs other).
Proof.
  intro Hyaml. split; [|split; [|split]].
  - intro Hfresh. apply load_sampling_after_save; assumption.
  - intro Hheld. unfold save. rewrite load_sampling_after__save.
    destruct (remove_group groupname (contents fs filename));
      [congruence|reflexivity].
  - intros key Hne. apply _save_keeps_groups. exact Hne.
  - intros other Hne. apply _save_elsewhere. exact Hne.
Qed.

(** X11.  [EmceeResult.save] stores the frame [data_frame(burn_in, thin)]
    of the chain, thinned as asked, together with the model; the sampler
    itself is not saved.  [load_sampling] gives that frame and model back
    when the file held nothing under another key and raises [ValueError]
    when it did. *)
Theorem EmceeResult_save_round_trip (self : EmceeResult Prior)
  (filename : String.string) (burn_in : Z) (thin : thin_arg)
  (fs : FileSystem Yaml) (df : DataFrame) :
  data_frame self burn_in thin = Ok df ->
  yaml_load (yaml_dump (model self)) = model self ->
  exists fs',
    EmceeResult_save yaml_dump self filename burn_in thin fs = Ok fs' /\
    (remove_group groupname (contents fs filename) = [] ->
     load_sampling yaml_load filename fs' =
       Ok (mkSamplingResult df (model self))) /\
    (remove_group groupname (contents fs filename) <> [] ->
     load_sampling yaml_load filename fs' = Raise ValueError) /\
    (forall other, other <> filename -> fs' other = fs other).
Proof.
  intros Hdf Hyaml. unfold EmceeResult_save. rewrite Hdf. cbn [bind].
  eexists. split; [reflexivity|].
  rewrite load_sampling_after__save. cbn [sr_model]. rewrite Hyaml.
  split; [|split].
  - intros ->. reflexivity.
  - intro Hheld.
    destruct (remove_group groupname (contents fs filename));
      [congruence|reflexivity].
  - intros other Hne. apply _save_elsewhere. exact Hne.
Qed.

End WithYaml.

Lemma load_sampling_round_trip_dominated :
  (remove_group groupname (contents no_files Files.chain_h5) = [] ->
   load_sampling (fun y => y) Files.chain_h5
     (save (fun m => m) result_dominated Files.chain_h5 no_files)
   = Ok result_dominated) /\
  (remove_group groupname (contents no_files Files.chain_h5) <> [] ->
   load_sampling (fun y => y) Files.chain_h5
     (save (fun m => m) result_dominated Files.chain_h5 no_files)
   = Raise ValueError) /\
  (forall key, key <> groupname ->
     get_group key
       (contents (save (fun m => m) result_dominated Files.chain_h5 no_files)
          Files.chain_h5) =
     get_group key (contents no_files Files.chain_h5)) /\
  (forall other, other <> Files.chain_h5 ->
     save (fun m => m) result_dominated Files.chain_h5 no_files other
     = no_files other).
Proof.
  apply (load_sampling_round_trip unit (Model unit) (fun m => m) (fun y => y)
           result_dominated Files.chain_h5 no_files).
  reflexivity.
Defined.

(** The two cases on files: a new file gives the table back, a file that
    holds a table under another key makes [load_sampling] raise. *)
Lemma load_sampling_new_file :
  load_sampling (fun y => y) Files.chain_h5
    (save (fun m => m) result_dominated Files.chain_h5 no_files)
  = Ok result_dominated.
Proof. reflexivity. Qed.

Lemma load_sampling_second_dataset :
  load_sampling (fun y => y) Files.chain_h5
    (save (fun m => m) result_dominated Files.chain_h5 Files.with_background)
  = Raise ValueError.
Proof. reflexivity. Qed.

Lemma EmceeResult_save_round_trip_thinned :
  exists fs',
    EmceeResult_save (fun m => m) chain_thinned Files.chain_h5 1 ThinAcor
      no_files = Ok fs' /\
    (remove_group groupname (contents no_files Files.chain_h5) = [] ->
     load_sampling (fun y => y) Files.chain_h5 fs' =
       Ok (mkSamplingResult
             [mkRow [1] (-3); mkRow [3] (-1); mkRow [6] (-3); mkRow [8] (-1)]
             (model chain_thinned))) /\
    (remove_group groupname (contents no_files Files.chain_h5) <> [] ->
     load_sampling (fun y => y) Files.chain_h5 fs' = Raise ValueError) /\
    (forall other, other <> Files.chain_h5 -> fs' other = no_files other).
Proof.
  apply (EmceeResult_save_round_trip unit (Model unit) (fun m => m) (fun y => y)
           chain_thinned Files.chain_h5 1 ThinAcor no_files).
  - reflexivity.
  - reflexivity.
Defined.

End PersistMoreFacts.

(** ** More about the scheduler *)

Module TemperingMoreFacts.

Import Fractions FractionsFacts Tempering TemperingFacts Tables.

Section Scheduler.

Context {E : Externals}.

(** Draws never raise: a list of them gives one result per element. *)
Lemma mapM_draw {A B : Type} (f : A -> World -> B * World) (l : list A)
  (w : World) :
  exists bs w',
    mapM (fun a => draw (f a)) l w = Ok (bs, w') /\
    List.length bs = List.length l.
Proof.
  revert w. induction l as [|a l IH]; intro w.
  - exists [], w. split; reflexivity.
  - cbn [mapM]. unfold bindM at 1. unfold draw at 1.
    destruct (f a w) as [b w1].
    destruct (IH w1) as [bs [w2 [Hbs Hlen]]].
    unfold bindM at 1. rewrite Hbs.
    exists (b :: bs), w2. split; [reflexivity|].
    simpl. f_equal. exact Hlen.
Qed.

(** What a list of draws returns element by element. *)
Lemma mapM_draw_In {A B : Type} (f : A -> World -> B * World) (l : list A) :
  forall (w : World) (bs : list B) (w' : World),
    mapM (fun a => draw (f a)) l w = Ok (bs, w') ->
    forall b, In b bs -> exists a w0, In a l /\ b = fst (f a w0).
Proof.
  induction l as [|a l IH]; intros w bs w' H b Hb.
  - cbn [mapM] in H. unfold ret in H. injection H as <- _. destruct Hb.
  - cbn [mapM] in H. unfold bindM at 1 in H. unfold draw at 1 in H.
    destruct (f a w) as [b0 w1] eqn:Hf.
    unfold bindM at 1 in H.
    destruct (mapM (fun a0 => draw (f a0)) l w1) as [[bs' w2]|e] eqn:Hrest;
      [|discriminate].
    unfold ret in H. injection H as <- _.
    destruct Hb as [<-|Hb].
    + exists a, w. split; [left; reflexivity|]. rewrite Hf. reflexivity.
    + destruct (IH w1 bs' w2 Hrest b Hb) as [a' [w0 [Hin Heq]]].
      exists a', w0. split; [right; exact Hin|exact Heq].
Qed.

(** [vstack] answers only for columns of one length; the transpose then
    has that many rows, each as long as there are columns. *)
Lemma vstack_T_shape (columns : list (list Q)) (p0 : list Series) :
  vstack_T columns = Ok p0 ->
  columns <> [] /\
  Forall (fun c => List.length c = List.length p0) columns /\
  Forall (fun pos => List.length pos = List.length columns) p0.
Proof.
  unfold vstack_T. destruct columns as [|c cs]; [discriminate|].
  destruct (forallb _ cs) eqn:Hall; [|discriminate].
  intro H. injection H as <-.
  rewrite length_map, length_seq.
  split; [discriminate|]. split.
  - constructor; [reflexivity|].
    apply Forall_forall. intros c' Hc'.
    rewrite forallb_forall in Hall. apply Nat.eqb_eq. apply Hall. exact Hc'.
  - apply Forall_forall. intros pos Hpos.
    apply in_map_iff in Hpos. destruct Hpos as [i [<- _]].
    apply (length_map (fun col : list Q => nth i col 0%Q) (c :: cs)).
Qed.

Lemma vstack_T_returns (columns : list (list Q)) (n : nat) :
  columns <> [] ->
  Forall (fun c => List.length c = n) columns ->
  exists p0, vstack_T columns = Ok p0 /\ List.length p0 = n.
Proof.
  intros Hne Hall. unfold vstack_T.
  destruct columns as [|c cs]; [congruence|].
  inversion Hall as [|c0 cs0 Hc Hcs]; subst.
  assert (Hb : forallb (fun c' => (List.length c' =? List.length c)%nat) cs = true).
  { apply forallb_forall. intros c' Hc'. apply Nat.eqb_eq.
    rewrite Forall_forall in Hcs. apply Hcs. exact Hc'. }
  rewrite Hb. eexists. split; [reflexivity|].
  rewrite length_map, length_seq. reflexivity.
Qed.

(** X12.  [make_guess] stacks one sample per parameter.  It raises
    [ValueError], and nothing else, for a model without parameters and
    for samples of different lengths; what it returns has one row per
    entry of a sample and one coordinate per parameter in every row; and
    when every [p.sample(size=nwalkers)] holds [nwalkers] values these
    are [nwalkers] positions. *)
Theorem make_guess_shape (self : Emcee) (w : World) :
  (parameters (e_model self) = [] -> make_guess self w = Raise ValueError) /\
  (forall e, make_guess self w = Raise e -> e = ValueError) /\
  (forall p0 w', make_guess self w = Ok (p0, w') ->
     Forall (fun pos => List.length pos = List.length (parameters (e_model self)))
       p0 /\
     exists columns,
       mapM (fun p => draw (prior_sample p (nwalkers self)))
         (parameters (e_model self)) w = Ok (columns, w') /\
       Forall (fun c => List.length c = List.length p0) columns) /\
  (parameters (e_model self) <> [] ->
   (forall p w0, In p (parameters (e_model self)) ->
      List.length (fst (prior_sample p (nwalkers self) w0)) = nwalkers self) ->
   exists p0 w',
     make_guess self w = Ok (p0, w') /\
     List.length p0 = nwalkers self /\
     Forall (fun pos => List.length pos = List.length (parameters (e_model self)))
       p0).
Proof.
  unfold make_guess, draw_positions.
  destruct (mapM_draw (fun p => prior_sample p (nwalkers self))
              (parameters (e_model self)) w) as [cols [w1 [Hcols Hlen]]].
  unfold bindM. rewrite Hcols. unfold lift.
  split; [|split; [|split]].
  - intro Hnil. rewrite Hnil in Hlen.
    destruct cols; [reflexivity|discriminate].
  - intros e He. unfold vstack_T in He.
    destruct cols as [|c cs]; [congruence|].
    destruct (forallb _ cs); [discriminate|congruence].
  - intros p0 w' H.
    destruct (vstack_T cols) as [p|e] eqn:Hv; [|discriminate].
    injection H as <- <-.
    destruct (vstack_T_shape cols p Hv) as [_ [Hc Hp]].
    split; [rewrite <- Hlen; exact Hp|].
    exists cols. split; [reflexivity|exact Hc].
  - intros Hne Hsample.
    assert (Hall : Forall (fun c => List.length c = nwalkers self) cols).
    { apply Forall_forall. intros c Hc.
      destruct (mapM_draw_In (fun p => prior_sample p (nwalkers self))
                  (parameters (e_model self)) w cols w1 Hcols c Hc)
        as [p [w0 [Hin ->]]].
      apply Hsample. exact Hin. }
    assert (Hcne : cols <> []).
    { intro Hnil. rewrite Hnil in Hlen.
      destruct (parameters (e_model self)); [congruence|discriminate]. }
    destruct (vstack_T_returns cols (nwalkers self) Hcne Hall) as [p0 [Hv Hn]].
    rewrite Hv. exists p0, w1. split; [reflexivity|]. split; [exact Hn|].
    destruct (vstack_T_shape cols p0 Hv) as [_ [_ Hp]].
    rewrite <- Hlen. exact Hp.
Qed.

Lemma fractions_two_or_more (min_pixels max_pixels : Z) (k : nat) (np : Z) :
  exists rest last_one,
    stage_fractions (fractions min_pixels max_pixels (S k) np) =
      hd 0%R (fractions min_pixels max_pixels (S k) np) :: rest /\
    final_fraction (fractions min_pixels max_pixels (S k) np) = Ok last_one.
Proof.
  pose proof (fractions_length min_pixels max_pixels (S k) np) as Hlen.
  destruct (fractions min_pixels max_pixels (S k) np) as [|a [|b l]] eqn:Hfr;
    try discriminate.
  unfold stage_fractions, final_fraction.
  destruct (rev (a :: b :: l)) as [|x xs] eqn:Hrev.
  - apply (f_equal (@List.length R)) in Hrev. rewrite length_rev in Hrev.
    discriminate.
  - exists (removelast (b :: l)), x. split; reflexivity.
Qed.

(** X13.  With at least one preliminary stage, an exception raised when
    the first stage's chain is summarised and its priors are refined
    ([updated_priors]) is the outcome of [subset_tempering]: the schedule
    stops there, no later stage is run. *)
Theorem first_stage_error_aborts (model : Model Prior) (data : Frames Image)
  (final_len n : nat) (min_pixels max_pixels : Z) (t : threads_arg)
  (k stage_len : nat) (preprocess : option (Image -> Image)) (w : World)
  (np : Z) (emcee : Emcee) (w1 w2 : World) (r : EmceeResult Prior) (e : exn) :
  n_pixels_of (hook preprocess) data = Ok np ->
  Emcee_init model data n
    (Some (hd 0%R (fractions min_pixels max_pixels (S k) np)))
    (match t with ThreadsAll => Some cpu_count | ThreadsGiven t' => t' end)
    (Some (hook preprocess)) w = Ok (emcee, w1) ->
  sample emcee stage_len None w1 = Ok (r, w2) ->
  updated_priors r None = Raise e ->
  subset_tempering model data final_len n min_pixels max_pixels t (S k)
    stage_len preprocess w = Raise e.
Proof.
  intros Hnp Hinit Hsample Hprior.
  unfold subset_tempering. cbv zeta. unfold bindM at 1. unfold lift at 1.
  rewrite Hnp.
  destruct (fractions_two_or_more min_pixels max_pixels k np)
    as [rest [last_one [Hstages Hfinal]]].
  unfold bindM at 1. unfold lift at 1. rewrite Hfinal.
  unfold bindM at 1. rewrite Hstages. cbn [stages_loop].
  unfold bindM at 1. rewrite Hinit.
  unfold bindM at 1. rewrite Hsample.
  unfold bindM at 1. unfold lift at 1. rewrite Hprior. reflexivity.
Qed.

Lemma map_result_length {A B : Type} (f : A -> result B) (l : list A)
  (bs : list B) :
  map_result f l = Ok bs -> List.length bs = List.length l.
Proof.
  revert bs. induction l as [|a l IH]; intros bs H.
  - simpl in H. injection H as <-. reflexivity.
  - cbn [map_result] in H.
    destruct (f a) as [b|e]; [|discriminate]. cbn [bind] in H.
    destruct (map_result f l) as [bs'|e]; [|discriminate]. cbn [bind] in H.
    injection H as <-. simpl. f_equal. apply IH. reflexivity.
Qed.

Lemma zip3_length {A B C : Type} (a : list A) (b : list B) (c : list C) :
  List.length (zip3 a b c) =
  Nat.min (List.length a) (Nat.min (List.length b) (List.length c)).
Proof.
  revert b c. induction a as [|x a IH]; intros [|y b] [|z c]; simpl;
    try reflexivity.
  f_equal. apply IH.
Qed.

(** X16.  [updated_priors] refines, in order, as many priors as the
    shortest of the parameter list, the summary and the list of extra
    uncertainties has entries: an [extra_uncertainty] that is too short
    silently drops the parameters past its end; when it is left out
    there is one zero per parameter. *)
Theorem updated_priors_count (r : EmceeResult Prior)
  (extra_uncertainty : option (list Q)) (vs : list UncertainValue)
  (ps : list Prior) :
  values r = Ok vs ->
  updated_priors r extra_uncertainty = Ok ps ->
  List.length ps =
  Nat.min (List.length (parameters (model r)))
    (Nat.min (List.length vs)
       (match extra_uncertainty with
        | Some e => List.length e
        | None => List.length (parameters (model r))
        end)).
Proof.
  intros Hv Hps. unfold updated_priors in Hps. rewrite Hv in Hps.
  cbn [bind] in Hps. apply map_result_length in Hps.
  rewrite Hps, zip3_length.
  destruct extra_uncertainty as [e|]; [reflexivity|].
  rewrite repeat_length. reflexivity.
Qed.

Lemma sample_model (self : Emcee) (n_samples : nat)
  (p0 : option (list Series)) (w w' : World) (res : EmceeResult Prior) :
  sample self n_samples p0 w = Ok (res, w') -> model res = e_model self.
Proof.
  unfold sample, bindM, ret.
  destruct (match p0 with None => make_guess self | Some p => _ end w)
    as [[p w1]|e]; [|discriminate].
  destruct (run_mcmc _ _ _ _ _ _ w1) as [[s w2]|e]; [|discriminate].
  intro H. injection H as <- _. reflexivity.
Qed.

(** X17.  The result [subset_tempering] returns carries the model it was
    called with: the priors refined between the stages seed the walkers
    of the next stage and are never put into the model. *)
Theorem subset_tempering_keeps_model (model : Model Prior)
  (data : Frames Image) (final_len n : nat) (min_pixels max_pixels : Z)
  (t : threads_arg) (stages stage_len : nat)
  (preprocess : option (Image -> Image)) (w w' : World)
  (res : EmceeResult Prior) :
  subset_tempering model data final_len n min_pixels max_pixels t stages
    stage_len preprocess w = Ok (res, w') ->
  Results.model res = model.
Proof.
  unfold subset_tempering. cbv zeta. unfold bindM at 1. unfold lift at 1.
  destruct (n_pixels_of (hook preprocess) data) as [np|e]; [|discriminate].
  unfold bindM at 1. unfold lift at 1.
  destruct (final_fraction _) as [ff|e]; [|discriminate].
  unfold bindM at 1.
  destruct (stages_loop _ _ _ _ _ _ _ _ w) as [[p0 w1]|e]; [|discriminate].
  unfold bindM at 1.
  destruct (Emcee_init _ _ _ _ _ _ w1) as [[emcee w2]|e] eqn:Hinit;
    [|discriminate].
  intro Hsample. apply sample_model in Hsample.
  destruct (Emcee_init_stores _ _ _ _ _ _ _ _ _ Hinit) as [Hm _].
  congruence.
Qed.

End Scheduler.

Import Collapsed Flat.

Lemma make_guess_shape_three_walkers :
  exists p0 w',
    make_guess (E := collapsed_env)
      (mkEmcee (E := collapsed_env) model0 1 (SingleFrame 1000%nat) 3 None)
      0%nat = Ok (p0, w') /\
    List.length p0 = 3%nat /\
    Forall (fun pos => List.length pos = 1%nat) p0.
Proof.
  apply (proj2 (proj2 (proj2
           (make_guess_shape (E := collapsed_env)
              (mkEmcee (E := collapsed_env) model0 1 (SingleFrame 1000%nat) 3 None)
              0%nat)))).
  - discriminate.
  - intros p w0 _. cbn [prior_sample collapsed_env gaussian_sample fst nwalkers].
    rewrite length_map, length_seq. reflexivity.
Defined.

Lemma updated_priors_count_no_extra :
  exists ps,
    updated_priors (E := collapsed_env) stage_result (Some []) = Ok ps /\
    List.length ps =
    Nat.min (List.length (parameters (model stage_result)))
      (Nat.min (List.length [mkUncertainValue 3 0 (Some 0) 1])
         (List.length (@nil Q))).
Proof.
  exists []. split; [reflexivity|].
  apply (updated_priors_count (E := collapsed_env) stage_result (Some [])
           [mkUncertainValue 3 0 (Some 0) 1] []).
  - reflexivity.
  - reflexivity.
Defined.

Lemma subset_tempering_keeps_model_collapsed :
  model stage_result = model0.
Proof.
  apply (subset_tempering_keeps_model (E := collapsed_env) model0
           (SingleFrame 1000%nat) 2 1 10 1000 (ThreadsGiven None) 1 2 None
           0%nat 2%nat stage_result).
  lazy. reflexivity.
Defined.

Lemma first_stage_error_aborts_flat :
  subset_tempering (E := flat_env) model0 (SingleFrame 1000%nat) 2 2 10 1000
    (ThreadsGiven None) 1 2 None 0%nat = Raise (IndexError 2).
Proof.
  eapply (first_stage_error_aborts (E := flat_env) model0
            (SingleFrame 1000%nat) 2 2 10 1000 (ThreadsGiven None) 0 2 None
            0%nat 1000%Z).
  - reflexivity.
  - lazy. reflexivity.
  - lazy. reflexivity.
  - reflexivity.
Defined.

End TemperingMoreFacts.

(** ** More about the fraction schedule *)

Module FractionsMoreFacts.

Import Fractions FractionsFacts.

Local Open Scope R_scope.

Lemma final_fraction_last (l : list R) (x : R) :
  nth_error l (List.length l - 1) = Some x -> final_fraction l = Ok x.
Proof.
  intro H. unfold final_fraction.
  destruct (rev l) as [|y ys] eqn:Hrev.
  - apply (f_equal (@List.length R)) in Hrev. rewrite length_rev in Hrev.
    destruct l; [discriminate H|discriminate Hrev].
  - assert (Hl : l = rev ys ++ [y]).
    { rewrite <- (rev_involutive l), Hrev. reflexivity. }
    rewrite Hl in H. rewrite length_app in H. cbn [List.length] in H.
    rewrite nth_error_app2 in H by lia.
    replace (List.length (rev ys) + 1 - 1 - List.length (rev ys))%nat
      with 0%nat in H by lia.
    simpl in H. congruence.
Qed.

Lemma spec_fraction_first (min_pixels max_pixels : Z) (stages : nat)
  (n_pixels : Z) :
  (0 < min_pixels)%Z ->
  spec_fraction min_pixels max_pixels stages n_pixels 0 =
  IZR min_pixels / IZR n_pixels.
Proof.
  intro Hmin. unfold spec_fraction, lerp. cbn [INR].
  replace (log10 (IZR min_pixels) +
           (log10 (IZR max_pixels) - log10 (IZR min_pixels)) * (0 / INR stages))
    with (log10 (IZR min_pixels)) by (unfold Rdiv; ring).
  change (Rpower 10 (log10 (IZR min_pixels)))
    with (power10 (log10 (IZR min_pixels))).
  rewrite power10_log10 by (apply IZR_lt; exact Hmin). reflexivity.
Qed.

Lemma spec_fraction_last (min_pixels max_pixels : Z) (stages : nat)
  (n_pixels : Z) :
  (1 <= stages)%nat -> (0 < max_pixels)%Z ->
  spec_fraction min_pixels max_pixels stages n_pixels stages =
  IZR max_pixels / IZR n_pixels.
Proof.
  intros Hs Hmax. unfold spec_fraction, lerp.
  assert (HnR : INR stages <> 0) by (apply not_0_INR; lia).
  replace (log10 (IZR min_pixels) +
           (log10 (IZR max_pixels) - log10 (IZR min_pixels)) *
           (INR stages / INR stages))
    with (log10 (IZR max_pixels)) by (field; exact HnR).
  change (Rpower 10 (log10 (IZR max_pixels)))
    with (power10 (log10 (IZR max_pixels))).
  rewrite power10_log10 by (apply IZR_lt; exact Hmax). reflexivity.
Qed.





End FractionsMoreFacts.
